(** * DocxDiff: a shallow embedding of [nodes/DocxDiff/DocxDiff.node.ts]

    The development follows the source file top to bottom: JavaScript
    strings and the tree values produced by the XML parser, the revision
    stripper, the tokenizer, the LCS differ, the run synthesizer, the
    paragraph differ and finally [docxDiffTracked].  The third-party
    libraries (JSZip, fast-xml-parser), [JSON.stringify] and the system
    clock are section variables: the code under study is parametric in
    them. *)

From stdpp Require Import base list strings pretty.
From Equations Require Import Equations.
From Stdlib Require Import NArith ZArith.
Local Open Scope nat_scope.
Set Warnings "-register-all".

(** ** JavaScript strings *)

(** A JavaScript string is a finite sequence of UTF-16 code units. *)
Abbreviation jsstring := (list N).

(** Literals of the source, written as Rocq strings (one code unit per
    character; every literal of the source is ASCII). *)
Definition js (s : string) : jsstring :=
  map Ascii.N_of_ascii (String.list_ascii_of_string s).

(** The class [\s] of ECMAScript regular expressions, which is also the set
    of code units removed by [String.prototype.trim]: WhiteSpace and
    LineTerminator. *)
Definition is_space (c : N) : bool :=
  ((9 <=? c) && (c <=? 13) || (c =? 32) || (c =? 160) || (c =? 5760)
   || (8192 <=? c) && (c <=? 8202) || (c =? 8232) || (c =? 8233)
   || (c =? 8239) || (c =? 8287) || (c =? 12288) || (c =? 65279))%N.

(** The class [\w]: [A-Za-z0-9_]. *)
Definition is_word (c : N) : bool :=
  ((48 <=? c) && (c <=? 57) || (65 <=? c) && (c <=? 90) || (c =? 95)
   || (97 <=? c) && (c <=? 122))%N.

Fixpoint skip_spaces (s : jsstring) : jsstring :=
  match s with
  | c :: s' => if is_space c then skip_spaces s' else s
  | [] => []
  end.

(** [s.trim()] *)
Definition trim (s : jsstring) : jsstring :=
  reverse (skip_spaces (reverse (skip_spaces s))).

(** [s.substring(i, j)] for [i <= j] *)
Definition substring (s : jsstring) (i j : nat) : jsstring :=
  take (j - i) (drop i s).

(** [hay.includes(needle)] *)
Fixpoint starts_with (needle hay : jsstring) : bool :=
  match needle, hay with
  | [], _ => true
  | c :: needle', d :: hay' => (c =? d)%N && starts_with needle' hay'
  | _ :: _, [] => false
  end.

Fixpoint includes (hay needle : jsstring) : bool :=
  starts_with needle hay ||
  match hay with
  | [] => false
  | _ :: hay' => includes hay' needle
  end.

(** [String(n)] for a non-negative integer [n] *)
Definition String_of_nat (n : nat) : jsstring := js (pretty n).

(** ** Tree values

    The values the code handles under the type [any]: what
    [XMLParser.parse] builds (objects, arrays, strings, numbers, booleans)
    and what the code builds itself.  An object is its list of own
    properties in insertion order; the keys met here are element and
    attribute names and ["#text"], none of them an array index, so
    insertion order is enumeration order.  [null] and [undefined] never
    occur as members of these trees; a read that yields [undefined] is
    [None].  The code looks at a number only to see whether it is truthy
    and otherwise passes it on, so integers stand for the numbers. *)
Inductive jsval :=
| VStr (s : jsstring)
| VNum (n : Z)
| VBool (b : bool)
| VArr (items : list jsval)
| VObj (props : list (jsstring * jsval)).

Fixpoint assoc (props : list (jsstring * jsval)) (k : jsstring) : option jsval :=
  match props with
  | [] => None
  | (k', v) :: props' => if decide (k' = k) then Some v else assoc props' k
  end.

(** [v.k] for one of the property names the source reads ([ins], [del],
    [moveFrom], [moveTo], [r], [t], ["#text"], [document], [body], [p]):
    none exists on strings, numbers, booleans or arrays. *)
Definition get (v : jsval) (k : string) : option jsval :=
  match v with
  | VObj props => assoc props (js k)
  | _ => None
  end.

(** [o.k = v]: an existing key keeps its place, a new one goes last. *)
Fixpoint set_prop (props : list (jsstring * jsval)) (k : jsstring) (v : jsval)
  : list (jsstring * jsval) :=
  match props with
  | [] => [(k, v)]
  | (k', v') :: props' =>
      if decide (k' = k) then (k, v) :: props' else (k', v') :: set_prop props' k v
  end.

(** ToBoolean *)
Definition truthy (v : jsval) : bool :=
  match v with
  | VStr s => negb (bool_decide (s = []))
  | VNum n => negb (n =? 0)%Z
  | VBool b => b
  | VArr _ | VObj _ => true
  end.

(** [x || y] on possibly undefined operands *)
Definition or_else (x y : option jsval) : option jsval :=
  match x with
  | Some v => if truthy v then x else y
  | None => y
  end.

(** [x ?? y] *)
Definition nullish_else (x y : option jsval) : option jsval :=
  match x with
  | Some _ => x
  | None => y
  end.

(** The own enumerable properties copied by [{ ...v }]. *)
Definition spread (v : jsval) : list (jsstring * jsval) :=
  match v with
  | VObj props => props
  | VArr items => imap (fun i x => (String_of_nat i, x)) items
  | VStr s => imap (fun i c => (String_of_nat i, VStr [c])) s
  | VNum _ | VBool _ => []
  end.

(** ** Revision stripper (lines 78-91) *)

(** [node.ins || node.del || node.moveFrom || node.moveTo], when truthy *)
Definition trackedContent (node : jsval) : option jsval :=
  match or_else (get node "ins")
          (or_else (get node "del")
             (or_else (get node "moveFrom") (get node "moveTo"))) with
  | Some content => if truthy content then Some content else None
  | None => None
  end.

Fixpoint stripTrackedChanges (node : jsval) : jsval :=
  match node with
  | VObj props =>
      match trackedContent node with
      | Some content =>
          match get content "r" with
          | Some (VArr rs) => VObj [(js "r", VArr rs)]
          | _ => content
          end
      | None =>
          VObj (map (fun kv =>
                       (kv.1,
                        match kv.2 with
                        | VArr items => VArr (map stripTrackedChanges items)
                        | VObj _ => stripTrackedChanges kv.2
                        | v => v
                        end)) props)
      end
  | VArr items =>
      VArr (map (fun v =>
                   match v with
                   | VArr items' => VArr (map stripTrackedChanges items')
                   | VObj _ => stripTrackedChanges v
                   | _ => v
                   end) items)
  | _ => node
  end.

(** ** Tokenizer (lines 93-95, 159-160) *)

Definition space_at (s : jsstring) (q : nat) : bool :=
  match s !! q with Some c => is_space c | None => false end.

Definition word_at (s : jsstring) (q : nat) : bool :=
  match s !! q with Some c => is_word c | None => false end.

(** The assertion [\b] at index [q]. *)
Definition word_boundary (s : jsstring) (q : nat) : bool :=
  xorb (match q with 0 => false | S q' => word_at s q' end) (word_at s q).

Fixpoint spaces_length (s : jsstring) : nat :=
  match s with
  | c :: s' => if is_space c then S (spaces_length s') else 0
  | [] => 0
  end.

(** A match of [/(\s+|\b)/] anchored at index [q]: the end index of the
    match, whose only capture is the matched text.  The alternatives are
    tried in order, and [\s+] is greedy. *)
Definition match_at (s : jsstring) (q : nat) : option nat :=
  if space_at s q then Some (q + spaces_length (drop q s))
  else if word_boundary s q then Some q
  else None.

(** A value together with the equation that names it, for the termination
    proofs below. *)
Definition inspect {A} (a : A) : {b : A | a = b} := exist _ a eq_refl.

(** The loop of [RegExp.prototype[Symbol.split]] (ECMAScript 22.2.6.14,
    steps 13-17) for a non-empty [s]: [p] is the end of the last separator,
    [q] the index where a separator is tried, [A] the pieces so far. *)
Equations? split_loop (s : jsstring) (p q : nat) (A : list jsstring)
  : list jsstring
  by wf (2 * (length s - q) + (if Nat.eqb p q then 0 else 1)) lt :=
split_loop s p q A with lt_dec q (length s) := {
  | right _ => A ++ [substring s p (length s)]
  | left _ with inspect (match_at s q) := {
      | exist _ None _ => split_loop s p (q + 1) A
      | exist _ (Some e0) _ with Nat.eq_dec (e0 `min` length s) p := {
          | left _ => split_loop s p (q + 1) A
          | right _ =>
              split_loop s (e0 `min` length s) (e0 `min` length s)
                (A ++ [substring s p q; substring s q (e0 `min` length s)]) } } }.
Proof.
  all: intros; simpl in *;
    try match goal with
      | H : match_at ?s ?q = Some ?e |- _ =>
          assert (q <= e)
            by (unfold match_at in H;
                destruct (space_at s q); [injection H as <-; lia|];
                destruct (word_boundary s q); [injection H as <-; lia|];
                discriminate)
      end;
    repeat match goal with
      | |- context [Nat.eqb ?a ?b] => destruct (Nat.eqb_spec a b)
      end; lia.
Qed.

(** [s.split(/(\s+|\b)/)] *)
Definition split_words (s : jsstring) : list jsstring :=
  match s with
  | [] => match match_at s 0 with Some _ => [] | None => [s] end
  | _ => split_loop s 0 0 []
  end.

(** [text.split(/(\s+|\b)/).filter((s) => s !== '')] *)
Definition tokenizeWords (text : jsstring) : list jsstring :=
  filter (fun s => s <> []) (split_words text).

(** [text.split('')]: one token per code unit *)
Definition split_chars (text : jsstring) : list jsstring :=
  map (fun c => [c]) text.

Inductive Granularity := word | char.

Definition tokenize (text : jsstring) (g : Granularity) : list jsstring :=
  match g with
  | char => split_chars text
  | word => tokenizeWords text
  end.

(** ** Sequence differ (lines 97-115) *)

Inductive OpType := Eq | Ins | Del.

Record Op := mkOp { type : OpType; value : jsstring }.

(** The table [dp]: [m + 1] rows of [n + 1] numbers.  The numbers are
    counts bounded by the lengths of the token arrays, so the arithmetic on
    them is exact. *)
Abbreviation table := (list (list nat)).

(** [Array.from({ length: m + 1 }, () => new Array<number>(n + 1).fill(0))] *)
Definition dp_init (m n : nat) : table :=
  replicate (m + 1) (replicate (n + 1) 0).

(** [dp[i][j]]; all reads of the source are in range ([0] stands for the
    reads that do not happen). *)
Definition dp_at (dp : table) (i j : nat) : nat :=
  match dp !! i with
  | Some row => default 0 (row !! j)
  | None => 0
  end.

(** [dp[i][j] = v] *)
Definition dp_set (dp : table) (i j v : nat) : table :=
  alter (fun row => <[j := v]> row) i dp.

(** [a[i] === b[j]], also where an index is out of range ([undefined]) *)
Definition same_token (a b : list jsstring) (i j : nat) : bool :=
  bool_decide (a !! i = b !! j).

(** The right-hand side of line 102. *)
Definition dp_cell (a b : list jsstring) (dp : table) (i j : nat) : nat :=
  if same_token a b i j then dp_at dp (i + 1) (j + 1) + 1
  else dp_at dp (i + 1) j `max` dp_at dp i (j + 1).

(** [for (let j = k - 1; j >= 0; j--) dp[i][j] = ...] *)
Fixpoint fill_row (a b : list jsstring) (i : nat) (dp : table) (k : nat) : table :=
  match k with
  | 0 => dp
  | S j => fill_row a b i (dp_set dp i j (dp_cell a b dp i j)) j
  end.

(** [for (let i = k - 1; i >= 0; i--) for (let j = n - 1; ...) ...] *)
Fixpoint fill_rows (a b : list jsstring) (dp : table) (k : nat) : table :=
  match k with
  | 0 => dp
  | S i => fill_rows a b (fill_row a b i dp (length b)) i
  end.

Definition fill_table (a b : list jsstring) : table :=
  fill_rows a b (dp_init (length a) (length b)) (length a).

(** The loop of lines 107-111; its result is the script and the final
    values of [i] and [j]. *)
Equations? backtrack (dp : table) (a b : list jsstring) (i j : nat) (ops : list Op)
  : list Op * nat * nat
  by wf ((length a - i) + (length b - j)) lt :=
backtrack dp a b i j ops with lt_dec i (length a), lt_dec j (length b) := {
  | left _, left _ with same_token a b i j := {
      | true => backtrack dp a b (i + 1) (j + 1) (ops ++ [mkOp Eq (a !!! i)])
      | false with (dp_at dp i (j + 1) <=? dp_at dp (i + 1) j) := {
          | true => backtrack dp a b (i + 1) j (ops ++ [mkOp Del (a !!! i)])
          | false => backtrack dp a b i (j + 1) (ops ++ [mkOp Ins (b !!! j)]) } }
  | _, _ => (ops, i, j) }.
Proof. all: lia. Qed.

(** [while (i < m) ops.push({ type: t, value: xs[i++] })] *)
Definition push_rest (t : OpType) (xs : list jsstring) (i : nat) (ops : list Op)
  : list Op :=
  ops ++ map (mkOp t) (drop i xs).

Definition diffTokens (a b : list jsstring) : list Op :=
  let dp := fill_table a b in
  let '(ops, i, j) := backtrack dp a b 0 0 [] in
  push_rest Ins b j (push_rest Del a i ops).

(** ** Run synthesizer (lines 117-141) *)

Definition text_node (tag : string) (text : jsstring) : jsval :=
  VObj [(js tag, VObj [(js "@_xml:space", VStr (js "preserve"));
                       (js "#text", VStr text)])].

(** [{ r: { t: { '@_xml:space': 'preserve', '#text': text } } }], line 135 *)
Definition plainRun (text : jsstring) : jsval :=
  VObj [(js "r", text_node "t" text)].

Section Clock.

(** [nowIso k] is what the [k]-th call of [nowIso()] in an invocation
    returns; every function that reads the clock takes the number of reads
    made so far and, where it matters, returns the new number. *)
Variable nowIso : nat -> jsstring.

Definition buildInsRuns (text author : jsstring) (id : nat) (tick : nat) : jsval :=
  VObj [(js "ins",
         VObj [(js "id", VStr (String_of_nat id)); (js "author", VStr author);
               (js "date", VStr (nowIso tick));
               (js "r", VArr [text_node "t" text])])].

Definition buildDelRuns (text author : jsstring) (id : nat) (tick : nat) : jsval :=
  VObj [(js "del",
         VObj [(js "id", VStr (String_of_nat id)); (js "author", VStr author);
               (js "date", VStr (nowIso tick));
               (js "r", VArr [text_node "delText" text])])].

Record MergeState := mkMerge {
  outRuns : list jsval;
  insBuf : jsstring;
  delBuf : jsstring;
  nextId : nat;
  ticks : nat
}.

Definition flush (author : jsstring) (st : MergeState) : MergeState :=
  let st1 :=
    if bool_decide (delBuf st = []) then st
    else mkMerge (outRuns st ++ [buildDelRuns (delBuf st) author (nextId st) (ticks st)])
           (insBuf st) [] (nextId st + 1) (ticks st + 1) in
  if bool_decide (insBuf st1 = []) then st1
  else mkMerge (outRuns st1 ++ [buildInsRuns (insBuf st1) author (nextId st1) (ticks st1)])
         [] (delBuf st1) (nextId st1 + 1) (ticks st1 + 1).

(** The body of the loop of lines 134-138. *)
Definition merge_step (author : jsstring) (st : MergeState) (op : Op) : MergeState :=
  match type op with
  | Eq =>
      let st1 := flush author st in
      mkMerge (outRuns st1 ++ [plainRun (value op)])
        (insBuf st1) (delBuf st1) (nextId st1) (ticks st1)
  | Ins => mkMerge (outRuns st) (insBuf st ++ value op) (delBuf st) (nextId st) (ticks st)
  | Del => mkMerge (outRuns st) (insBuf st) (delBuf st ++ value op) (nextId st) (ticks st)
  end.

Definition mergeRuns (ops : list Op) (author : jsstring) (tick : nat)
  : list jsval * nat :=
  let st := flush author (foldl (merge_step author) (mkMerge [] [] [] 1 tick) ops) in
  (outRuns st, ticks st).

(** ** Paragraph model and paragraph differ (lines 143-166) *)

(** [Array.isArray(x) ? x : x ? [x] : []] *)
Definition as_array (x : option jsval) : list jsval :=
  match x with
  | Some (VArr items) => items
  | Some v => if truthy v then [v] else []
  | None => []
  end.

(** The text one run contributes to [paragraphText]. *)
Definition runText (r : jsval) : jsstring :=
  match get r "t" with
  | Some (VStr s) => s
  | Some t =>
      if truthy t then
        match get t "#text" with
        | Some (VStr s) => s
        | _ => []
        end
      else []
  | None => []
  end.

Definition paragraphText (p : jsval) : jsstring :=
  foldl (fun s r => s ++ runText r) [] (as_array (get p "r")).

Inductive RevisionsPolicy := policy_ignore | policy_fail.

Record ResourceLimits := mkLimits {
  maxTotalUnzippedBytes : Z;
  maxEntries : Z;
  maxEntrySize : Z;
  maxTokensPerParagraph : Z
}.

(** [limits] is read with [?? defaultLimits]: it may be missing. *)
Record Options := mkOptions {
  granularity : Granularity;
  suppressWhitespaceOnly : bool;
  includeLists : bool;
  includeTables : bool;
  includeTextBoxes : bool;
  includeHeadersFooters : bool;
  existingTrackedRevisions : RevisionsPolicy;
  limits : option ResourceLimits
}.

Definition defaultLimits : ResourceLimits :=
  mkLimits (50 * 1024 * 1024) 2000 (5 * 1024 * 1024) 4000.

(** [x.r ?? x.ins ?? x.del]; a run made by [mergeRuns] has one of the three
    keys, so the last case is never reached. *)
Definition unwrapRun (x : jsval) : jsval :=
  match nullish_else (get x "r") (nullish_else (get x "ins") (get x "del")) with
  | Some v => v
  | None => x
  end.

Definition diffParagraph (baseP revP : jsval) (author : jsstring)
    (options : Options) (tick : nat) : jsval * nat :=
  let a := paragraphText baseP in
  let b := paragraphText revP in
  if suppressWhitespaceOnly options && bool_decide (trim a = trim b) then (revP, tick)
  else
    let tokensA := tokenize a (granularity options) in
    let tokensB := tokenize b (granularity options) in
    let ops := diffTokens tokensA tokensB in
    let '(runs, tick') := mergeRuns ops author tick in
    (VObj (set_prop (spread revP) (js "r") (VArr (map unwrapRun runs))), tick').

End Clock.

(** ** Archive loading and the whole invocation (lines 65-76, 168-269) *)

Definition Buffer : Type := list N.

(** What a call that may throw, or a promise that may reject, ends in. *)
Inductive outcome (A : Type) :=
| Returns (a : A)
| Throws (message : jsstring).
Arguments Returns {A} a.
Arguments Throws {A} message.

(** An entry of a JSZip archive: its name, whether it is a folder, the
    compressed size JSZip recorded when it loaded it ([_data?.compressedSize])
    and what [async('string')] settles to: the text of the entry, or the
    error of an entry that cannot be inflated or decoded. *)
Record ZipObject := mkZipObject {
  name : jsstring;
  dir : bool;
  compressedSize : option Z;
  content : outcome jsstring
}.

(** [zip.files], in the order of [Object.values]. *)
Abbreviation JSZip := (list ZipObject).

Record DiffInput := mkInput {
  base : Buffer;
  revised : Buffer;
  author : jsstring;
  options : Options
}.

Record DiffResult := mkResult {
  buffer : Buffer;
  warnings : list jsstring
}.

(** The double quote, for the two literal parts below. *)
Definition dq : string := String (Ascii.ascii_of_nat 34) EmptyString.

Definition xml_attr (k v : string) : string := k +:+ "=" +:+ dq +:+ v +:+ dq.

Definition xml_decl : string :=
  "<?xml " +:+ xml_attr "version" "1.0" +:+ " " +:+ xml_attr "encoding" "UTF-8"
  +:+ " " +:+ xml_attr "standalone" "yes" +:+ "?>".

Definition contentTypes : jsstring :=
  js (xml_decl +:+ "
<Types " +:+ xml_attr "xmlns" "http://schemas.openxmlformats.org/package/2006/content-types" +:+ ">
  <Default " +:+ xml_attr "Extension" "rels" +:+ " "
  +:+ xml_attr "ContentType" "application/vnd.openxmlformats-package.relationships+xml" +:+ "/>
  <Default " +:+ xml_attr "Extension" "xml" +:+ " "
  +:+ xml_attr "ContentType" "application/xml" +:+ "/>
  <Override " +:+ xml_attr "PartName" "/word/document.xml" +:+ " "
  +:+ xml_attr "ContentType" "application/vnd.openxmlformats-officedocument.wordprocessingml.document.main+xml" +:+ "/>
  <Override " +:+ xml_attr "PartName" "/word/settings.xml" +:+ " "
  +:+ xml_attr "ContentType" "application/vnd.openxmlformats-officedocument.wordprocessingml.settings+xml" +:+ "/>
</Types>").

Definition relsRels : jsstring :=
  js (xml_decl +:+ "
<Relationships " +:+ xml_attr "xmlns" "http://schemas.openxmlformats.org/package/2006/relationships" +:+ ">
  <Relationship " +:+ xml_attr "Id" "rId1" +:+ " "
  +:+ xml_attr "Type" "http://schemas.openxmlformats.org/officeDocument/2006/relationships/officeDocument"
  +:+ " " +:+ xml_attr "Target" "word/document.xml" +:+ "/>
</Relationships>").

Definition wml_namespace : jsval :=
  VStr (js "http://schemas.openxmlformats.org/wordprocessingml/2006/main").

(** [settings], lines 239-244 *)
Definition settings : jsval :=
  VObj [(js "settings",
         VObj [(js "@_xmlns:w", wml_namespace); (js "trackRevisions", VObj [])])].

(** [docOut], lines 228-236 *)
Definition docOut (outParas : list jsval) : jsval :=
  VObj [(js "document",
         VObj [(js "@_xmlns:w", wml_namespace);
               (js "body", VObj [(js "p", VArr outParas); (js "sectPr", VObj [])])])].

(** [v?.k] on a possibly undefined [v] *)
Definition opt_get (v : option jsval) (k : string) : option jsval :=
  match v with
  | Some x => get x k
  | None => None
  end.

(** The paragraphs of a stripped document, lines 200-205. *)
Definition paragraphsOf (clean : jsval) : list jsval :=
  as_array (opt_get (opt_get (get clean "document") "body") "p").

(** [v.r[0]] *)
Definition first_run (v : option jsval) : option jsval :=
  match opt_get v "r" with
  | Some (VArr (x :: _)) => Some x
  | _ => None
  end.

(** A possibly undefined value as a condition. *)
Definition present (x : option jsval) : bool :=
  match x with
  | Some v => truthy v
  | None => false
  end.

Section Invocation.

Variable nowIso : nat -> jsstring.

(** JSZip: [loadAsync] rejects with an error, of which only the text
    [e.message || e] is used, or resolves to the archive; [generateAsync]
    serialises an archive, or rejects. *)
Variable loadAsync : Buffer -> jsstring + JSZip.

(** The two archives are loaded side by side and [Promise.all] rejects with
    the rejection that comes first in time: when both loads reject,
    [baseRejectsFirst] tells whether the one of the base archive did. *)
Variable baseRejectsFirst : bool.

Variable generateAsync : JSZip -> outcome Buffer.

(** fast-xml-parser: [parser.parse] throws ([None], the error is caught and
    dropped) or returns a tree; [builder.build] serialises a tree, or
    throws. *)
Variable parse : jsstring -> option jsval.
Variable build : jsval -> outcome jsstring.

(** [JSON.stringify] on a tree *)
Variable JSON_stringify : jsval -> jsstring.

(** The loop of lines 70-73: [true] when the running total exceeds the cap. *)
Fixpoint exceeds_cap (limits : ResourceLimits) (approxTotal : Z) (files : JSZip)
  : bool :=
  match files with
  | [] => false
  | f :: files' =>
      let approxTotal' := (approxTotal + default 0 (compressedSize f))%Z in
      if (approxTotal' >? maxTotalUnzippedBytes limits * 2)%Z then true
      else exceeds_cap limits approxTotal' files'
  end.

Definition safeLoadDocx (buf : Buffer) (limits : ResourceLimits) : outcome JSZip :=
  match loadAsync buf with
  | inl message => Throws message
  | inr zip =>
      if (Z.of_nat (length zip) >? maxEntries limits)%Z
      then Throws (js "DOCX too many entries")
      else if exceeds_cap limits 0 zip
           then Throws (js "DOCX likely exceeds unzip cap")
           else Returns zip
  end.

(** [z.file(path)] *)
Definition zip_file (z : JSZip) (path : jsstring) : option ZipObject :=
  match list_find (fun f => name f = path) z with
  | Some (_, f) => if dir f then None else Some f
  | None => None
  end.

(** [loadXml], lines 181-186: the tree or [null], and the warnings list
    after the call.  The read of line 184 is outside the [try] of line 185:
    its rejection is the rejection of the call. *)
Definition loadXml (z : JSZip) (path : jsstring) (warnings : list jsstring)
  : outcome (option jsval * list jsstring) :=
  match zip_file z path with
  | None => Returns (None, warnings)
  | Some f =>
      match content f with
      | Throws message => Throws message
      | Returns xml =>
          match parse xml with
          | Some tree => Returns (Some tree, warnings)
          | None =>
              Returns (None,
                       warnings ++ [js "Malformed " ++ path ++ js "; using raw fallback"])
          end
      end
  end.

(** [xs[i]] when it is truthy: the tests [bp] and [rp] of lines 212-222. *)
Definition truthy_at (xs : list jsval) (i : nat) : option jsval :=
  match xs !! i with
  | Some v => if truthy v then Some v else None
  | None => None
  end.

(** The paragraph of lines 214 and 219 around the first run of a wrapper;
    a wrapper without a first run would be a [TypeError]. *)
Definition wholly (wrapper : option jsval) : outcome jsval :=
  match first_run wrapper with
  | Some run => Returns (VObj [(js "r", VArr [run])])
  | None => Throws (js "TypeError")
  end.

(** The body of the loop of lines 209-226, for index [i]: the state is the
    paragraphs pushed so far and the number of clock reads. *)
Definition align_step (input : DiffInput) (baseParas revParas : list jsval)
    (st : list jsval * nat) (i : nat) : outcome (list jsval * nat) :=
  let '(outParas, tick) := st in
  match truthy_at baseParas i, truthy_at revParas i with
  | None, Some rp =>
      let text := paragraphText rp in
      match wholly (get (buildInsRuns nowIso text (author input) (i + 1) tick) "ins") with
      | Returns p => Returns (outParas ++ [p], tick + 1)
      | Throws message => Throws message
      end
  | Some bp, None =>
      let text := paragraphText bp in
      match wholly (get (buildDelRuns nowIso text (author input) (i + 1) tick) "del") with
      | Returns p => Returns (outParas ++ [p], tick + 1)
      | Throws message => Throws message
      end
  | Some bp, Some rp =>
      let '(d, tick') := diffParagraph nowIso bp rp (author input) (options input) tick in
      Returns (outParas ++ [d], tick')
  | None, None => Returns st
  end.

(** [for (let i = from; i < from + count; i++) ...] *)
Fixpoint align_loop (input : DiffInput) (baseParas revParas : list jsval)
    (st : list jsval * nat) (from count : nat) : outcome (list jsval * nat) :=
  match count with
  | 0 => Returns st
  | S count' =>
      match align_step input baseParas revParas st from with
      | Returns st' => align_loop input baseParas revParas st' (from + 1) count'
      | Throws message => Throws message
      end
  end.

(** Lines 197-226: from the two parsed documents to the output paragraphs. *)
Definition alignParagraphs (input : DiffInput) (baseDoc revDoc : jsval)
  : outcome (list jsval) :=
  let cleanBase := stripTrackedChanges baseDoc in
  let cleanRev := stripTrackedChanges revDoc in
  let baseParas := paragraphsOf cleanBase in
  let revParas := paragraphsOf cleanRev in
  let maxLen := length baseParas `max` length revParas in
  match align_loop input baseParas revParas ([], 0) 0 maxLen with
  | Returns (outParas, _) => Returns outParas
  | Throws message => Throws message
  end.

(** Lines 260-265: the archive that is written. *)
Definition outputZip (documentXml settingsXml : jsstring) : JSZip :=
  [ mkZipObject (js "[Content_Types].xml") false None (Returns contentTypes);
    mkZipObject (js "_rels/") true None (Returns []);
    mkZipObject (js "_rels/.rels") false None (Returns relsRels);
    mkZipObject (js "word/") true None (Returns []);
    mkZipObject (js "word/document.xml") false None (Returns documentXml);
    mkZipObject (js "word/settings.xml") false None (Returns settingsXml) ].

(** [docxDiffTracked].  When both loads reject, the error of line 178 is
    that of the rejection that came first.  Both parts are read (lines 188
    and 189, the base first) before the test of line 190, and lines 184,
    237, 245 and 267 are in no [try]: what they reject with or throw is what
    the invocation rejects with. *)
Definition docxDiffTracked (input : DiffInput) : outcome DiffResult :=
  let limits := default defaultLimits (limits (options input)) in
  match safeLoadDocx (base input) limits, safeLoadDocx (revised input) limits with
  | Throws baseMessage, Throws revMessage =>
      Throws (js "Failed to read DOCX: "
              ++ (if baseRejectsFirst then baseMessage else revMessage))
  | Throws message, Returns _ | Returns _, Throws message =>
      Throws (js "Failed to read DOCX: " ++ message)
  | Returns baseZip, Returns revZip =>
      match loadXml baseZip (js "word/document.xml") [] with
      | Throws message => Throws message
      | Returns (baseDoc, warnings1) =>
      match loadXml revZip (js "word/document.xml") warnings1 with
      | Throws message => Throws message
      | Returns (revDoc, warnings2) =>
      match baseDoc, revDoc with
      | Some baseDoc, Some revDoc =>
          if negb (truthy baseDoc) || negb (truthy revDoc)
          then Throws (js "Missing word/document.xml in one of the DOCX files")
          else if match existingTrackedRevisions (options input) with
                  | policy_fail =>
                      includes (JSON_stringify revDoc) (js "ins")
                      || includes (JSON_stringify revDoc) (js "del")
                  | policy_ignore => false
                  end
          then Throws (js "Revised document contains tracked revisions")
          else
            match alignParagraphs input baseDoc revDoc with
            | Throws message => Throws message
            | Returns outParas =>
            match build (docOut outParas) with
            | Throws message => Throws message
            | Returns documentXml =>
            match build settings with
            | Throws message => Throws message
            | Returns settingsXml =>
            match generateAsync (outputZip documentXml settingsXml) with
            | Throws message => Throws message
            | Returns buffer => Returns (mkResult buffer warnings2)
            end end end end
      | _, _ => Throws (js "Missing word/document.xml in one of the DOCX files")
      end end end
  end.

End Invocation.

(** ** Reference notions used in the statements *)

(** The length of a longest common subsequence, by the textbook recursion
    on the two sequences. *)
Equations? lcs (a b : list jsstring) : nat by wf (length a + length b) lt :=
lcs [] _ := 0;
lcs _ [] := 0;
lcs (x :: a') (y :: b') with decide (x = y) := {
  | left _ => lcs a' b' + 1
  | right _ => lcs a' (y :: b') `max` lcs (x :: a') b' }.
Proof. all: simpl; lia. Qed.

(** The edit script the backtracking loop and the two tail loops produce,
    as a recursion on what remains of the two sequences. *)
Equations? edit_script (a b : list jsstring) : list Op
  by wf (length a + length b) lt :=
edit_script [] b := map (mkOp Ins) b;
edit_script a [] := map (mkOp Del) a;
edit_script (x :: a') (y :: b') with decide (x = y) := {
  | left _ => mkOp Eq x :: edit_script a' b'
  | right _ with (lcs (x :: a') b' <=? lcs a' (y :: b')) := {
      | true => mkOp Del x :: edit_script a' (y :: b')
      | false => mkOp Ins y :: edit_script (x :: a') b' } }.
Proof. all: simpl; lia. Qed.

(** What lines 112-114 make of the state the backtracking loop ends in. *)
Definition finish (a b : list jsstring) (r : list Op * nat * nat) : list Op :=
  push_rest Ins b r.2 (push_rest Del a r.1.2 r.1.1).

(** The table has [m + 1] rows of [n + 1] cells. *)
Definition shaped (m n : nat) (dp : table) : Prop :=
  length dp = m + 1 /\ forall i row, dp !! i = Some row -> length row = n + 1.

(** The cell [(i, j)] holds the LCS length of [a[i:]] and [b[j:]]. *)
Definition cell_ok (a b : list jsstring) (dp : table) (i j : nat) : Prop :=
  dp_at dp i j = lcs (drop i a) (drop j b).

(** Every cell after [(i0, j0)] in the order of the two loops is filled:
    the rows below [i0], and row [i0] from column [j0] on; the last column,
    which the loops never write, still holds its initial zeros. *)
Definition filled (a b : list jsstring) (dp : table) (i0 j0 : nat) : Prop :=
  shaped (length a) (length b) dp /\
  (forall i, i <= length a -> dp_at dp i (length b) = 0) /\
  forall i j, i <= length a -> j <= length b ->
              i0 < i \/ (i0 = i /\ j0 <= j) -> cell_ok a b dp i j.

(** The tokens of the operations of a script whose type passes [keep]. *)
Definition tokens_where (keep : OpType -> bool) (ops : list Op) : list jsstring :=
  map value (filter (fun op => keep (type op) = true) ops).

Definition is_eq (t : OpType) : bool := match t with Eq => true | _ => false end.
Definition is_eq_or_del (t : OpType) : bool := match t with Ins => false | _ => true end.
Definition is_eq_or_ins (t : OpType) : bool := match t with Del => false | _ => true end.

(** [s] is a common subsequence of [a] and [b]. *)
Definition common_subsequence (s a b : list jsstring) : Prop :=
  s `sublist_of` a /\ s `sublist_of` b.

(** What diffing a paragraph against itself gives: the paragraph itself when
    whitespace-only changes are suppressed, and otherwise the paragraph with
    its runs replaced by one plain text run per token of its text. *)
Definition self_diff (options : Options) (p : jsval) : jsval :=
  if suppressWhitespaceOnly options then p
  else VObj (set_prop (spread p) (js "r")
               (VArr (map (text_node "t")
                        (tokenize (paragraphText p) (granularity options))))).

(** The runs of a paragraph of the output. *)
Definition runsOf (p : jsval) : list jsval := as_array (get p "r").

(** A paragraph made of a single plain run. *)
Definition single_plain_run (p : jsval) : Prop :=
  exists text, runsOf p = [text_node "t" text].

Definition has (v : jsval) (k : string) : bool :=
  match get v k with Some _ => true | None => false end.

(** A run carries tracked-change markup when it is an insertion or deletion
    wrapper, the content of one (which has an author), or deleted text. *)
Definition tracked_run (r : jsval) : bool :=
  has r "ins" || has r "del" || has r "author" || has r "delText".

Definition no_tracked_markup (p : jsval) : Prop :=
  Forall (fun r => tracked_run r = false) (runsOf p).

(** ** Sample data for the concrete runs *)

(** A clock that always shows the same instant. *)
Definition clock0 : nat -> jsstring := fun _ => js "2024-01-01T00:00:00.000Z".

(** What the parser makes of a run of text and of a paragraph with one
    such run. *)
Definition run (text : string) : jsval := VObj [(js "t", VStr (js text))].

Definition para (text : string) : jsval := VObj [(js "r", run text)].

(** A parsed document whose body has the member [p]: one paragraph, or an
    array of paragraphs when there are several. *)
Definition document (p : jsval) : jsval :=
  VObj [(js "document", VObj [(js "body", VObj [(js "p", p)])])].

Definition options_of (g : Granularity) (suppress : bool) (l : ResourceLimits) : Options :=
  mkOptions g suppress true true true false policy_ignore (Some l).

Definition input_of (base revised : Buffer) (options : Options) : DiffInput :=
  mkInput base revised (js "AutoDiff") options.

(** Stand-ins for the libraries in the concrete runs: an archive is read as
    the single part [word/document.xml] holding the bytes of the buffer, a
    part parses to a one-paragraph document with its text unless it is
    empty, and the writers keep the tree's paragraph texts. *)
Definition sample_loadAsync (buf : Buffer) : jsstring + JSZip :=
  inr [mkZipObject (js "word/document.xml") false (Some (Z.of_nat (length buf)))
         (Returns buf)].

Definition sample_parse (xml : jsstring) : option jsval :=
  match xml with
  | [] => None
  | _ => Some (document (VObj [(js "r", VObj [(js "t", VStr xml)])]))
  end.

Definition sample_build (tree : jsval) : outcome jsstring :=
  Returns (concat (map paragraphText (paragraphsOf tree))).

Definition sample_generateAsync (zip : JSZip) : outcome Buffer :=
  Returns (concat (map (fun f => match content f with
                                 | Returns text => text
                                 | Throws _ => []
                                 end) zip)).

Definition sample_stringify (tree : jsval) : jsstring :=
  concat (map paragraphText (paragraphsOf tree)).

(** The error with which reading the document part of an archive rejects,
    if the part is there and cannot be read. *)
Definition read_error (z : JSZip) : option jsstring :=
  match zip_file z (js "word/document.xml") with
  | Some f => match content f with
              | Throws message => Some message
              | Returns _ => None
              end
  | None => None
  end.

(** The error of an invocation that has loaded two archives of which one
    gives no document tree: the parts are read base first, so the read error
    of the base part if it has one, else the one of the revised part, else
    the missing-part error of line 190. *)
Definition abort_message (baseZip revZip : JSZip) : jsstring :=
  match read_error baseZip, read_error revZip with
  | Some message, _ => message
  | None, Some message => message
  | None, None => js "Missing word/document.xml in one of the DOCX files"
  end.

(** Two option values that differ at most in [limits.maxEntrySize]. *)
Definition same_but_maxEntrySize (o1 o2 : Options) : Prop :=
  granularity o1 = granularity o2 /\
  suppressWhitespaceOnly o1 = suppressWhitespaceOnly o2 /\
  includeLists o1 = includeLists o2 /\
  includeTables o1 = includeTables o2 /\
  includeTextBoxes o1 = includeTextBoxes o2 /\
  includeHeadersFooters o1 = includeHeadersFooters o2 /\
  existingTrackedRevisions o1 = existingTrackedRevisions o2 /\
  exists l1 l2, limits o1 = Some l1 /\ limits o2 = Some l2 /\
    maxTotalUnzippedBytes l1 = maxTotalUnzippedBytes l2 /\
    maxEntries l1 = maxEntries l2 /\
    maxTokensPerParagraph l1 = maxTokensPerParagraph l2.

(** A run as [mergeRuns] pushes them: it has one of the keys that
    [unwrapRun] reads. *)
Definition wrapped (x : jsval) : bool := has x "r" || has x "ins" || has x "del".

(** ** Notions used in the further properties *)

(** The three kinds of token the word tokenizer produces: whitespace, word
    characters, and anything else. *)
Definition all_space (tok : jsstring) : bool := forallb is_space tok.
Definition all_word (tok : jsstring) : bool := forallb is_word tok.
Definition all_other (tok : jsstring) : bool :=
  forallb (fun c => negb (is_space c) && negb (is_word c)) tok.

Definition uniform_token (tok : jsstring) : bool :=
  all_space tok || all_word tok || all_other tok.

(** A token without whitespace. *)
Definition no_space (tok : jsstring) : bool :=
  forallb (fun c => negb (is_space c)) tok.

Definition is_del (t : OpType) : bool := match t with Del => true | _ => false end.
Definition is_ins (t : OpType) : bool := match t with Ins => true | _ => false end.

(** The stretch from the last separator to the index under test holds no
    whitespace and is all word characters or all other characters. *)
Definition segment_ok (s : jsstring) (p q : nat) : Prop :=
  exists w : bool, forall i c, p <= i < q -> s !! i = Some c ->
                               is_space c = false /\ is_word c = w.

(** A tree in which no object has a truthy [ins], [del], [moveFrom] or
    [moveTo] member. *)
Fixpoint wrapper_free (v : jsval) : bool :=
  match v with
  | VObj props =>
      match trackedContent v with
      | Some _ => false
      | None => forallb (fun kv => wrapper_free kv.2) props
      end
  | VArr items => forallb wrapper_free items
  | _ => true
  end.

(** What the loop of lines 85-89 stores for a member [v]. *)
Definition strip_member (v : jsval) : jsval :=
  match v with
  | VArr items => VArr (map stripTrackedChanges items)
  | VObj _ => stripTrackedChanges v
  | x => x
  end.

(** Readers for the runs of a paragraph [diffParagraph] built.  A plain
    run holds its text under [t]; what is left of an insertion or a
    deletion holds [id], [author], [date] and, under [r], one inner run
    with the text under [t] or [delText]. *)

(** The text of [delText] in a run, read the way [runText] reads [t]. *)
Definition deletedRunText (r : jsval) : jsstring :=
  match get r "delText" with
  | Some (VStr s) => s
  | Some t =>
      if truthy t then
        match get t "#text" with
        | Some (VStr s) => s
        | _ => []
        end
      else []
  | None => []
  end.

(** The text a run contributes to the revised paragraph: its own text, or
    the text of its inner run. *)
Definition revisedText (run : jsval) : jsstring :=
  runText run ++
  match first_run (Some run) with
  | Some inner => runText inner
  | None => []
  end.

(** The text a run contributes to the base paragraph: its own text, or the
    deleted text of its inner run. *)
Definition baseText (run : jsval) : jsstring :=
  runText run ++
  match first_run (Some run) with
  | Some inner => deletedRunText inner
  | None => []
  end.

(** Whether a run is plain, an insertion or a deletion. *)
Definition runKind (run : jsval) : OpType :=
  if has run "t" then Eq
  else match first_run (Some run) with
       | Some inner => if has inner "delText" then Del else Ins
       | None => Ins
       end.

(** The kinds of consecutive runs, from a run of kind [prev] on: no
    insertion is followed by an insertion or a deletion, and no deletion
    by a deletion. *)
Fixpoint grouped (prev : OpType) (kinds : list OpType) : bool :=
  match kinds with
  | [] => true
  | k :: kinds' =>
      match prev, k with
      | Ins, Ins | Ins, Del | Del, Del => false
      | _, _ => grouped k kinds'
      end
  end.

(** The pieces [flush] pushes: the pending deletion, then the pending
    insertion. *)
Definition flush_del (nowIso : nat -> jsstring) (author : jsstring) (st : MergeState)
  : list jsval :=
  if bool_decide (delBuf st = []) then []
  else [buildDelRuns nowIso (delBuf st) author (nextId st) (ticks st)].

Definition flush_ins (nowIso : nat -> jsstring) (author : jsstring) (st : MergeState)
  : list jsval :=
  if bool_decide (insBuf st = []) then []
  else [buildInsRuns nowIso (insBuf st) author
          (nextId st + length (flush_del nowIso author st))
          (ticks st + length (flush_del nowIso author st))].

(** Whether [diffParagraph] runs the token differ. *)
Definition differ_runs (options : Options) (baseP revP : jsval) : Prop :=
  suppressWhitespaceOnly options = false \/
  trim (paragraphText baseP) <> trim (paragraphText revP).

(** The text of a list of runs under a reader. *)
Definition read_runs (reader : jsval -> jsstring) (runs : list jsval) : jsstring :=
  concat (map (fun x => reader (unwrapRun x)) runs).

(** The three texts of a state: what its runs and buffers hold of the
    unchanged tokens, of the revision and of the base. *)
Definition texts_of (st : MergeState) : jsstring * jsstring * jsstring :=
  (read_runs runText (outRuns st),
   read_runs revisedText (outRuns st) ++ insBuf st,
   read_runs baseText (outRuns st) ++ delBuf st).

Definition add_token (keep : OpType -> bool) (op : Op) (text : jsstring) : jsstring :=
  text ++ (if keep (type op) then value op else []).

(** The ids of the runs that have one. *)
Definition ids_of (runs : list jsval) : list jsval :=
  omap (fun x => get (unwrapRun x) "id") runs.

(** The ids [String(first)], ..., [String(first + count - 1)]. *)
Definition id_range (first count : nat) : list jsval :=
  map (fun k => VStr (String_of_nat k)) (seq first count).

Definition kinds_of (runs : list jsval) : list OpType :=
  map (fun x => runKind (unwrapRun x)) runs.

(** The kind of the last run, [prev] when there is none. *)
Definition last_kind (prev : OpType) (kinds : list OpType) : OpType :=
  default prev (last kinds).

(** What holds of a state between two operations: the ids pushed so far
    are [1 .. n], one clock read was made for each, the runs are grouped,
    and the last run pushed is a plain one. *)
Definition synth_inv (tick0 : nat) (st : MergeState) : Prop :=
  exists n,
    ids_of (outRuns st) = id_range 1 n /\
    nextId st = n + 1 /\ ticks st = tick0 + n /\
    grouped Eq (kinds_of (outRuns st)) = true /\
    last_kind Eq (kinds_of (outRuns st)) = Eq.

(** The same after the last [flush], when the last run may be tracked. *)
Definition synth_done (tick0 : nat) (st : MergeState) : Prop :=
  exists n,
    ids_of (outRuns st) = id_range 1 n /\
    ticks st = tick0 + n /\
    grouped Eq (kinds_of (outRuns st)) = true.

(** The sum of the compressed sizes the loop of lines 70-73 adds up. *)
Definition total_compressed (files : JSZip) : Z :=
  foldr (fun f total => (default 0 (compressedSize f) + total)%Z) 0%Z files.

(** Whether one of the two paragraph lists has a truthy paragraph at [i]. *)
Definition paragraph_at (baseParas revParas : list jsval) (i : nat) : bool :=
  present (baseParas !! i) || present (revParas !! i).

(** The kind of a code unit: [0] for whitespace, [1] for a word character,
    [2] for anything else. *)
Definition class_of (c : N) : nat :=
  if is_space c then 0 else if is_word c then 1 else 2.

(** The maximal runs of code units of one kind, in order. *)
Fixpoint class_runs (s : jsstring) : list jsstring :=
  match s with
  | [] => []
  | c :: s' =>
      match class_runs s' with
      | (d :: run) :: runs =>
          if Nat.eqb (class_of c) (class_of d) then (c :: d :: run) :: runs
          else [c] :: (d :: run) :: runs
      | _ => [[c]]
      end
  end.

(** * Properties *)

(** ** Token round trip *)

Lemma match_at_ge (s : jsstring) (q e : nat) : match_at s q = Some e -> q <= e.
Proof.
  unfold match_at. intros H.
  destruct (space_at s q); [injection H as <-; lia|].
  destruct (word_boundary s q); [injection H as <-; lia | discriminate].
Qed.

Lemma substring_drop (s : jsstring) (i j : nat) :
  i <= j -> substring s i j ++ drop j s = drop i s.
Proof.
  intros Hij. unfold substring.
  rewrite <- (take_drop (j - i) (drop i s)) at 2.
  rewrite drop_drop. do 2 f_equal. lia.
Qed.

Lemma substring_to_end (s : jsstring) (p : nat) : substring s p (length s) = drop p s.
Proof. unfold substring. apply take_ge. rewrite length_drop. lia. Qed.

Lemma split_loop_concat (s : jsstring) (p q : nat) (A : list jsstring) :
  p <= q -> concat (split_loop s p q A) = concat A ++ drop p s.
Proof.
  funelim (split_loop s p q A); intros Hpq.
  - rewrite concat_app, substring_to_end. simpl. by rewrite app_nil_r.
  - match goal with IH : (_ <= _ -> concat _ = _) |- _ => apply IH; lia end.
  - match goal with IH : (_ <= _ -> concat _ = _) |- _ => apply IH; lia end.
  - match goal with IH : (_ <= _ -> concat _ = _) |- _ => rewrite IH by lia end.
    match goal with
    | E : match_at _ _ = Some _ |- _ => pose proof (match_at_ge _ _ _ E)
    end.
    rewrite concat_app. simpl. rewrite app_nil_r, <- !app_assoc. f_equal.
    rewrite substring_drop by lia. by rewrite substring_drop by lia.
Qed.

Lemma split_words_concat (s : jsstring) : concat (split_words s) = s.
Proof.
  destruct s as [|c s]; [reflexivity|].
  unfold split_words. by rewrite split_loop_concat.
Qed.

Lemma concat_filter_nonempty (l : list jsstring) :
  concat (filter (fun s => s <> []) l) = concat l.
Proof.
  induction l as [|x l IH]; [reflexivity|].
  rewrite filter_cons. destruct (decide (x <> [])) as [Hx|Hx]; simpl.
  - by rewrite IH.
  - apply dec_stable in Hx. subst x. apply IH.
Qed.

Lemma split_chars_concat (s : jsstring) : concat (split_chars s) = s.
Proof. induction s as [|c s IH]; simpl; [|rewrite IH]; reflexivity. Qed.

Lemma tokens_concat (T : jsstring) (g : Granularity) : concat (tokenize T g) = T.
Proof.
  destruct g; simpl.
  - unfold tokenizeWords. rewrite concat_filter_nonempty. apply split_words_concat.
  - apply split_chars_concat.
Qed.

(** ** Whitespace is kept, in tokens of its own *)

Lemma substring_lookup (s : jsstring) (p q k : nat) (c : N) :
  substring s p q !! k = Some c -> s !! (p + k) = Some c /\ p + k < q.
Proof.
  unfold substring. intros [Hk Hlt]%lookup_take_Some.
  rewrite lookup_drop in Hk. split; [done|lia].
Qed.

Lemma substring_Forall (P : N -> Prop) (s : jsstring) (p q : nat) :
  (forall i c, p <= i < q -> s !! i = Some c -> P c) -> Forall P (substring s p q).
Proof.
  intros H. apply Forall_lookup. intros k c [Hc Hlt]%substring_lookup.
  apply (H (p + k)); [lia|done].
Qed.

Lemma forallb_Forall (f : N -> bool) (l : jsstring) :
  Forall (fun c => f c = true) l -> forallb f l = true.
Proof. induction 1 as [|c l Hc _ IH]; simpl; [done|]. by rewrite Hc, IH. Qed.

Lemma spaces_prefix (l : jsstring) (k : nat) :
  k <= spaces_length l -> Forall (fun c => is_space c = true) (take k l).
Proof.
  revert k. induction l as [|c l IH]; intros k Hk; [by rewrite take_nil|].
  destruct k as [|k]; [constructor|]. simpl in *.
  destruct (is_space c) eqn:Hc; [|lia].
  constructor; [done|]. apply IH. lia.
Qed.

Lemma segment_ok_uniform (s : jsstring) (p q : nat) :
  segment_ok s p q -> uniform_token (substring s p q) = true.
Proof.
  intros [w Hseg]. unfold uniform_token.
  destruct w.
  - assert (all_word (substring s p q) = true) as ->; [|by rewrite orb_true_r].
    apply forallb_Forall, substring_Forall. intros i c Hi Hc.
    by destruct (Hseg i c Hi Hc).
  - assert (all_other (substring s p q) = true) as ->; [|by rewrite !orb_true_r].
    apply forallb_Forall, substring_Forall. intros i c Hi Hc.
    destruct (Hseg i c Hi Hc) as [-> ->]. done.
Qed.

Lemma segment_ok_empty (s : jsstring) (p : nat) : segment_ok s p p.
Proof. exists true. intros i c Hi. lia. Qed.

Lemma segment_ok_extend (s : jsstring) (p q : nat) :
  p <= q -> segment_ok s p q -> space_at s q = false ->
  (p < q -> word_boundary s q = false) ->
  segment_ok s p (q + 1).
Proof.
  intros Hpq [w Hseg] Hspace Hbound.
  destruct (decide (p = q)) as [->|Hne].
  - exists (word_at s q). intros i c Hi Hc. assert (i = q) as -> by lia.
    unfold space_at, word_at in *. rewrite Hc in *. done.
  - exists w. intros i c Hi Hc.
    destruct (decide (i = q)) as [->|Hiq]; [|apply (Hseg i c); [lia|done]].
    specialize (Hbound ltac:(lia)). unfold word_boundary in Hbound.
    destruct q as [|q']; [lia|].
    unfold space_at, word_at in *. rewrite Hc in *.
    destruct (s !! q') as [c'|] eqn:Hc'.
    + destruct (Hseg q' c' ltac:(lia) Hc') as [_ Hw]. rewrite Hw in Hbound.
      split; [done|]. by destruct w, (is_word c).
    + apply lookup_ge_None in Hc'. apply lookup_lt_Some in Hc. lia.
Qed.

Lemma match_at_cases (s : jsstring) (q e : nat) :
  match_at s q = Some e ->
  (space_at s q = true /\ e = q + spaces_length (drop q s)) \/
  (space_at s q = false /\ word_boundary s q = true /\ e = q).
Proof.
  unfold match_at. destruct (space_at s q); [intros [= <-]; by left|].
  destruct (word_boundary s q); [intros [= <-]; by right|done].
Qed.

Lemma spaces_length_pos (s : jsstring) (q : nat) :
  space_at s q = true -> 1 <= spaces_length (drop q s).
Proof.
  unfold space_at. destruct (s !! q) as [c|] eqn:Hc; [|done].
  intros Hs. rewrite (drop_S s c q Hc). simpl. rewrite Hs. lia.
Qed.

Lemma match_at_None (s : jsstring) (q : nat) :
  match_at s q = None -> space_at s q = false /\ word_boundary s q = false.
Proof.
  unfold match_at. destruct (space_at s q); [done|].
  by destruct (word_boundary s q).
Qed.

Lemma split_loop_uniform (s : jsstring) (p q : nat) (A : list jsstring) :
  p <= q -> segment_ok s p q ->
  Forall (fun tok => uniform_token tok = true) A ->
  Forall (fun tok => uniform_token tok = true) (split_loop s p q A).
Proof.
  funelim (split_loop s p q A); intros Hpq Hseg HA.
  - apply Forall_app. split; [done|]. apply Forall_singleton.
    rewrite substring_to_end. rewrite <- (substring_to_end s p).
    apply segment_ok_uniform. destruct Hseg as [w Hseg]. exists w.
    intros i c Hi Hc. apply (Hseg i c); [lia|done].
  - match goal with
    | E : match_at _ _ = None |- _ => destruct (match_at_None _ _ E) as [Hs Hb]
    end.
    match goal with
    | IH : context [Forall _ (split_loop _ _ _ _)] |- _ => apply IH; [lia| |done]
    end.
    by apply segment_ok_extend.
  - match goal with
    | E : match_at _ _ = Some _ |- _ => destruct (match_at_cases _ _ _ E) as [[Hs He]|(Hs & Hb & He)]
    end; [pose proof (spaces_length_pos _ _ Hs); lia|].
    match goal with
    | IH : context [Forall _ (split_loop _ _ _ _)] |- _ => apply IH; [lia| |done]
    end.
    apply segment_ok_extend; [done|done|done|lia].
  - match goal with
    | IH : context [Forall _ (split_loop _ _ _ _)] |- _ => apply IH; [lia|apply segment_ok_empty|]
    end.
    apply Forall_app. split; [done|].
    apply Forall_cons. split; [by apply segment_ok_uniform|].
    apply Forall_singleton.
    match goal with
    | E : match_at _ _ = Some _ |- _ => destruct (match_at_cases _ _ _ E) as [[Hs He]|(Hs & Hb & He)]
    end.
    + unfold uniform_token.
      assert (all_space (substring s q (e0 `min` length s)) = true) as ->; [|done].
      apply forallb_Forall. unfold substring. apply spaces_prefix. lia.
    + subst e0. unfold substring. replace (q `min` length s - q) with 0 by lia.
      by rewrite take_0.
Qed.

Lemma is_word_not_space (c : N) : is_word c = true -> is_space c = false.
Proof.
  unfold is_word, is_space. intros Hw. apply not_true_is_false. intros Hs.
  repeat (rewrite ?orb_true_iff, ?andb_true_iff, ?N.leb_le, ?N.eqb_eq in Hw).
  repeat (rewrite ?orb_true_iff, ?andb_true_iff, ?N.leb_le, ?N.eqb_eq in Hs).
  lia.
Qed.

Lemma uniform_space_or_not (tok : jsstring) :
  uniform_token tok = true -> all_space tok = true \/ no_space tok = true.
Proof.
  unfold uniform_token, all_space, all_word, all_other, no_space.
  intros [[Hs|Hw]%orb_prop|Ho]%orb_prop; [by left|right..].
  - apply forallb_forall. rewrite forallb_forall in Hw. intros c Hc.
    by rewrite (is_word_not_space c (Hw c Hc)).
  - apply forallb_forall. rewrite forallb_forall in Ho. intros c Hc.
    by destruct (andb_prop _ _ (Ho c Hc)) as [-> _].
Qed.

Lemma tokens_space_or_not (T : jsstring) (g : Granularity) :
  Forall (fun tok => tok <> [] /\ (all_space tok = true \/ no_space tok = true))
    (tokenize T g).
Proof.
  destruct g; simpl.
  - unfold tokenizeWords. apply Forall_forall.
    intros tok [Hne Htok]%list_elem_of_filter. split; [done|].
    apply uniform_space_or_not. clear Hne. revert tok Htok. apply Forall_forall.
    destruct T as [|c T]; [by apply Forall_singleton|].
    unfold split_words. apply split_loop_uniform; [done|apply segment_ok_empty|done].
  - unfold split_chars. apply Forall_forall.
    intros tok (c & -> & _)%list_elem_of_fmap. split; [done|].
    unfold all_space, no_space. simpl. destruct (is_space c); [by left|by right].
Qed.

(** C2: for every text and either granularity the tokens, concatenated in
    order, give the text back: nothing is lost, duplicated or trimmed.  The
    whitespace is kept as tokens: no token is empty, and every token is
    either made of whitespace only or holds no whitespace, so each
    whitespace character of the text stands in a token of whitespace. *)
Theorem tokenize_concat (T : jsstring) (g : Granularity) :
  concat (tokenize T g) = T /\
  Forall (fun tok => tok <> [] /\ (all_space tok = true \/ no_space tok = true))
    (tokenize T g).
Proof. split; [apply tokens_concat|apply tokens_space_or_not]. Qed.

(** ** The table of the differ holds the LCS lengths of the suffixes *)

Lemma lcs_nil_r (a : list jsstring) : lcs a [] = 0.
Proof. destruct a; by simp lcs. Qed.

Lemma lcs_cons (x y : jsstring) (a b : list jsstring) :
  lcs (x :: a) (y :: b) =
  if decide (x = y) then lcs a b + 1 else lcs a (y :: b) `max` lcs (x :: a) b.
Proof. simp lcs. by destruct (decide (x = y)). Qed.

Lemma same_token_spec (a b : list jsstring) (i j : nat) (x y : jsstring) :
  a !! i = Some x -> b !! j = Some y ->
  same_token a b i j = bool_decide (x = y).
Proof.
  intros Ha Hb. unfold same_token. rewrite Ha, Hb.
  apply bool_decide_ext. split; congruence.
Qed.

Lemma lcs_drop (a b : list jsstring) (i j : nat) :
  i < length a -> j < length b ->
  lcs (drop i a) (drop j b) =
  if same_token a b i j then lcs (drop (i + 1) a) (drop (j + 1) b) + 1
  else lcs (drop (i + 1) a) (drop j b) `max` lcs (drop i a) (drop (j + 1) b).
Proof.
  intros Hi Hj.
  destruct (lookup_lt_is_Some_2 a i Hi) as [x Hx].
  destruct (lookup_lt_is_Some_2 b j Hj) as [y Hy].
  rewrite (same_token_spec a b i j x y Hx Hy).
  rewrite !Nat.add_1_r.
  rewrite (drop_S a x i Hx), (drop_S b y j Hy), lcs_cons.
  destruct (decide (x = y)) as [Hxy|Hxy].
  - rewrite (bool_decide_true _ Hxy). lia.
  - by rewrite (bool_decide_false _ Hxy).
Qed.

Lemma dp_init_shaped (m n : nat) : shaped m n (dp_init m n).
Proof.
  split; [apply length_replicate|].
  intros i row [-> _]%lookup_replicate. apply length_replicate.
Qed.

Lemma dp_set_shaped (m n : nat) (dp : table) (i j v : nat) :
  shaped m n dp -> shaped m n (dp_set dp i j v).
Proof.
  intros [Hlen Hrows]. split; [unfold dp_set; by rewrite length_alter|].
  intros i' row. unfold dp_set.
  destruct (decide (i = i')) as [<-|Hne].
  - rewrite list_lookup_alter_eq. destruct (dp !! i) as [r|] eqn:Hr; [|done].
    simpl. intros [= <-]. rewrite length_insert. eauto.
  - rewrite list_lookup_alter_ne by done. eauto.
Qed.

Lemma dp_at_set_eq (m n : nat) (dp : table) (i j v : nat) :
  shaped m n dp -> i <= m -> j <= n -> dp_at (dp_set dp i j v) i j = v.
Proof.
  intros [Hlen Hrows] Hi Hj. unfold dp_at, dp_set.
  rewrite list_lookup_alter_eq.
  destruct (lookup_lt_is_Some_2 dp i) as [row Hrow]; [lia|].
  rewrite Hrow. simpl.
  rewrite list_lookup_insert_eq; [done|]. rewrite (Hrows _ _ Hrow). lia.
Qed.

Lemma dp_at_set_ne (dp : table) (i j v i' j' : nat) :
  i <> i' \/ j <> j' -> dp_at (dp_set dp i j v) i' j' = dp_at dp i' j'.
Proof.
  intros Hne. unfold dp_at, dp_set.
  destruct (decide (i = i')) as [<-|Hi].
  - rewrite list_lookup_alter_eq. destruct (dp !! i) as [row|]; [|done].
    simpl. rewrite list_lookup_insert_ne; [done|]. destruct Hne; congruence.
  - by rewrite list_lookup_alter_ne.
Qed.

Section Table.

Variables a b : list jsstring.

Let m := length a.
Let n := length b.

Lemma dp_init_at (i j : nat) : i <= m -> j <= n -> dp_at (dp_init m n) i j = 0.
Proof.
  intros Hi Hj. unfold dp_at, dp_init.
  rewrite lookup_replicate_2 by lia. by rewrite lookup_replicate_2 by lia.
Qed.

Lemma dp_init_filled : filled a b (dp_init m n) m 0.
Proof.
  split; [apply dp_init_shaped|]. split; [intros; by apply dp_init_at|].
  intros i j Hi Hj Hij. assert (i = m) as -> by lia.
  unfold cell_ok. rewrite dp_init_at by done.
  subst m. rewrite drop_all. by simp lcs.
Qed.

Lemma dp_cell_ok (dp : table) (i j : nat) :
  i < m -> j < n -> filled a b dp i (j + 1) ->
  dp_cell a b dp i j = lcs (drop i a) (drop j b).
Proof.
  intros Hi Hj (_ & _ & Hcells). rewrite lcs_drop by done. unfold dp_cell.
  rewrite (Hcells (i + 1) (j + 1)), (Hcells (i + 1) j), (Hcells i (j + 1)) by lia.
  done.
Qed.

Lemma fill_row_filled (i k : nat) (dp : table) :
  i < m -> k <= n -> filled a b dp i k -> filled a b (fill_row a b i dp k) i 0.
Proof.
  intros Hi. revert dp. induction k as [|j IH]; intros dp Hk Hdp; [done|].
  simpl. apply IH; [lia|].
  assert (filled a b dp i (j + 1)) as Hdp' by (by rewrite Nat.add_1_r).
  destruct Hdp as (Hshape & Hlast & Hcells).
  split; [by apply dp_set_shaped|]. split.
  - intros i' Hi'. rewrite dp_at_set_ne by lia. by apply Hlast.
  - intros i' j' Hi' Hj' Hafter. unfold cell_ok.
    destruct (decide (i = i' /\ j = j')) as [[<- <-]|Hne].
    + rewrite (dp_at_set_eq m n) by (done || lia). apply dp_cell_ok; [done|lia|done].
    + rewrite dp_at_set_ne by lia. apply Hcells; lia.
Qed.

Lemma filled_next_row (dp : table) (i : nat) :
  i < m -> filled a b dp (i + 1) 0 -> filled a b dp i n.
Proof.
  intros Hi (Hshape & Hlast & Hcells). split; [done|]. split; [done|].
  intros i' j' Hi' Hj' [Hlt|[<- Hge]]; [apply Hcells; lia|].
  assert (j' = n) as -> by lia.
  unfold cell_ok. rewrite Hlast by lia. subst n. by rewrite drop_all, lcs_nil_r.
Qed.

Lemma fill_rows_filled (k : nat) (dp : table) :
  k <= m -> filled a b dp k 0 -> filled a b (fill_rows a b dp k) 0 0.
Proof.
  revert dp. induction k as [|i IH]; intros dp Hk Hdp; [done|].
  simpl. apply IH; [lia|]. apply fill_row_filled; [lia|done|].
  apply filled_next_row; [lia|]. by rewrite Nat.add_1_r.
Qed.

(** After the two loops every cell of the table is an LCS length. *)
Lemma fill_table_spec (i j : nat) :
  i <= m -> j <= n -> dp_at (fill_table a b) i j = lcs (drop i a) (drop j b).
Proof.
  intros Hi Hj. unfold fill_table.
  destruct (fill_rows_filled m (dp_init m n)) as (_ & _ & Hcells);
    [done|apply dp_init_filled|].
  apply Hcells; lia.
Qed.

End Table.

(** ** The loops of [diffTokens] compute [edit_script] *)

Lemma edit_script_nil_r (a : list jsstring) : edit_script a [] = map (mkOp Del) a.
Proof. destruct a; by simp edit_script. Qed.

Lemma edit_script_cons (x y : jsstring) (a b : list jsstring) :
  edit_script (x :: a) (y :: b) =
  if decide (x = y) then mkOp Eq x :: edit_script a b
  else if lcs (x :: a) b <=? lcs a (y :: b) then mkOp Del x :: edit_script a (y :: b)
       else mkOp Ins y :: edit_script (x :: a) b.
Proof.
  simp edit_script. destruct (decide (x = y)); simpl; [done|].
  by destruct (lcs (x :: a) b <=? lcs a (y :: b)).
Qed.

Lemma diffTokens_finish (a b : list jsstring) :
  diffTokens a b = finish a b (backtrack (fill_table a b) a b 0 0 []).
Proof.
  unfold diffTokens, finish.
  by destruct (backtrack (fill_table a b) a b 0 0 []) as [[ops i] j].
Qed.

Lemma backtrack_script (dp : table) (a b : list jsstring) (i j : nat) (ops : list Op) :
  (forall i' j', i' <= length a -> j' <= length b ->
                 dp_at dp i' j' = lcs (drop i' a) (drop j' b)) ->
  i <= length a -> j <= length b ->
  finish a b (backtrack dp a b i j ops) = ops ++ edit_script (drop i a) (drop j b).
Proof.
  intros Hdp. funelim (backtrack dp a b i j ops); intros Hi Hj.
  - (* j = n *)
    unfold finish, push_rest. simpl.
    rewrite (drop_ge b j) by lia. simpl.
    by rewrite edit_script_nil_r, app_nil_r.
  - (* i = m *)
    unfold finish, push_rest. simpl.
    rewrite (drop_ge a i) by lia. simpl. simp edit_script.
    by rewrite app_nil_r.
  - (* a[i] === b[j] *)
    destruct (lookup_lt_is_Some_2 a i) as [x Hx]; [done|].
    destruct (lookup_lt_is_Some_2 b j) as [y Hy]; [done|].
    match goal with
    | IH : context [finish _ _ _ = _] |- _ => rewrite IH by (done || lia)
    end.
    rewrite (same_token_spec a b i j x y Hx Hy) in Heq.
    apply bool_decide_eq_true in Heq.
    rewrite (list_lookup_total_correct a i x Hx).
    rewrite !Nat.add_1_r, (drop_S a x i Hx), (drop_S b y j Hy), edit_script_cons.
    rewrite decide_True by done. by rewrite <- app_assoc.
  - (* delete *)
    destruct (lookup_lt_is_Some_2 a i) as [x Hx]; [done|].
    destruct (lookup_lt_is_Some_2 b j) as [y Hy]; [done|].
    match goal with
    | IH : context [finish _ _ _ = _] |- _ => rewrite IH by (done || lia)
    end.
    rewrite (same_token_spec a b i j x y Hx Hy) in Heq0.
    apply bool_decide_eq_false in Heq0.
    rewrite !Hdp in Heq by lia.
    rewrite (list_lookup_total_correct a i x Hx).
    rewrite (drop_S a x i Hx) in Heq |- *. rewrite (drop_S b y j Hy) in Heq |- *.
    rewrite !Nat.add_1_r in *. rewrite edit_script_cons.
    rewrite decide_False by done. rewrite Heq. by rewrite <- app_assoc.
  - (* insert *)
    destruct (lookup_lt_is_Some_2 a i) as [x Hx]; [done|].
    destruct (lookup_lt_is_Some_2 b j) as [y Hy]; [done|].
    match goal with
    | IH : context [finish _ _ _ = _] |- _ => rewrite IH by (done || lia)
    end.
    rewrite (same_token_spec a b i j x y Hx Hy) in Heq0.
    apply bool_decide_eq_false in Heq0.
    rewrite !Hdp in Heq by lia.
    rewrite (list_lookup_total_correct b j y Hy).
    rewrite (drop_S a x i Hx) in Heq |- *. rewrite (drop_S b y j Hy) in Heq |- *.
    rewrite !Nat.add_1_r in *. rewrite edit_script_cons.
    rewrite decide_False by done. rewrite Heq. by rewrite <- app_assoc.
Qed.

(** The imperative differ and the recursive script agree. *)
Lemma diffTokens_script (a b : list jsstring) : diffTokens a b = edit_script a b.
Proof.
  rewrite diffTokens_finish, backtrack_script; [done| |lia|lia].
  intros i j Hi Hj. by apply fill_table_spec.
Qed.

(** ** The script against the two sequences *)

Lemma tokens_where_cons (keep : OpType -> bool) (op : Op) (ops : list Op) :
  tokens_where keep (op :: ops) =
  if keep (type op) then value op :: tokens_where keep ops else tokens_where keep ops.
Proof.
  unfold tokens_where. rewrite filter_cons.
  by destruct (keep (type op)).
Qed.

Lemma tokens_where_map_keep (keep : OpType -> bool) (t : OpType) (xs : list jsstring) :
  keep t = true -> tokens_where keep (map (mkOp t) xs) = xs.
Proof.
  intros Hk. induction xs as [|x xs IH]; [done|].
  simpl. rewrite tokens_where_cons. simpl. by rewrite Hk, IH.
Qed.

Lemma tokens_where_map_drop (keep : OpType -> bool) (t : OpType) (xs : list jsstring) :
  keep t = false -> tokens_where keep (map (mkOp t) xs) = [].
Proof.
  intros Hk. induction xs as [|x xs IH]; [done|].
  simpl. rewrite tokens_where_cons. simpl. by rewrite Hk.
Qed.

Lemma edit_script_base (a b : list jsstring) :
  tokens_where is_eq_or_del (edit_script a b) = a.
Proof.
  funelim (edit_script a b).
  - by apply tokens_where_map_drop.
  - by apply tokens_where_map_keep.
  - rewrite tokens_where_cons. simpl. by f_equal.
  - rewrite tokens_where_cons. simpl. by f_equal.
  - by rewrite tokens_where_cons.
Qed.

Lemma edit_script_revised (a b : list jsstring) :
  tokens_where is_eq_or_ins (edit_script a b) = b.
Proof.
  funelim (edit_script a b).
  - by apply tokens_where_map_keep.
  - by apply tokens_where_map_drop.
  - rewrite tokens_where_cons. simpl. by f_equal.
  - by rewrite tokens_where_cons.
  - rewrite tokens_where_cons. simpl. by f_equal.
Qed.

(** C4: in the script of [diffTokens a b] the equal and delete operations
    carry, in order, exactly the tokens of [a], and the equal and insert
    operations carry, in order, exactly the tokens of [b]. *)
Theorem diffTokens_reconstructs (a b : list jsstring) :
  tokens_where is_eq_or_del (diffTokens a b) = a /\
  tokens_where is_eq_or_ins (diffTokens a b) = b.
Proof.
  rewrite diffTokens_script. split.
  - apply edit_script_base.
  - apply edit_script_revised.
Qed.

(** ** LCS correctness *)

(** No common subsequence is longer than [lcs a b]. *)
Lemma lcs_upper_bound (a b s : list jsstring) :
  s `sublist_of` a -> s `sublist_of` b -> length s <= lcs a b.
Proof.
  revert s. funelim (lcs a b); intros s Ha Hb.
  - apply sublist_nil_r in Ha. by subst s.
  - apply sublist_nil_r in Hb. by subst s.
  - (* equal heads *)
    destruct s as [|z s]; [simpl; lia|].
    assert (s `sublist_of` a') as Ha'.
    { apply sublist_cons_r in Ha as [Ha|(s' & [= _ <-] & Ha)]; [|done].
      by apply sublist_cons_l in Ha as (k1 & k2 & -> & Ha%(sublist_inserts_l (k1 ++ [z])));
        rewrite <- app_assoc in Ha. }
    assert (s `sublist_of` b') as Hb'.
    { apply sublist_cons_r in Hb as [Hb|(s' & [= _ <-] & Hb)]; [|done].
      by apply sublist_cons_l in Hb as (k1 & k2 & -> & Hb%(sublist_inserts_l (k1 ++ [z])));
        rewrite <- app_assoc in Hb. }
    match goal with
    | IH : (forall s, s `sublist_of` a' -> s `sublist_of` b' -> _) |- _ =>
        specialize (IH s Ha' Hb')
    end.
    simpl. lia.
  - (* different heads *)
    apply sublist_cons_r in Ha as [Ha|(s' & -> & Ha)].
    + match goal with
      | IH : (forall s, s `sublist_of` a' -> s `sublist_of` (y :: b') -> _) |- _ =>
          specialize (IH s Ha Hb)
      end. lia.
    + pose proof Hb as Hb0.
      apply sublist_cons_r in Hb as [Hb|(s'' & [= -> _] & _)]; [|done].
      match goal with
      | IH : (forall s, s `sublist_of` (x :: a') -> s `sublist_of` b' -> _) |- _ =>
          specialize (IH (x :: s') (sublist_skip _ _ _ Ha) Hb)
      end. lia.
Qed.

Lemma edit_script_common (a b : list jsstring) :
  common_subsequence (tokens_where is_eq (edit_script a b)) a b.
Proof.
  unfold common_subsequence. funelim (edit_script a b).
  - rewrite tokens_where_map_drop by done. split; apply sublist_nil_l.
  - rewrite tokens_where_map_drop by done. split; apply sublist_nil_l.
  - rewrite tokens_where_cons. simpl. destruct H as [Ha Hb].
    subst y. split; by apply sublist_skip.
  - rewrite tokens_where_cons. simpl. destruct H as [Ha Hb].
    split; [by apply sublist_cons|done].
  - rewrite tokens_where_cons. simpl. destruct H as [Ha Hb].
    split; [done|by apply sublist_cons].
Qed.

Lemma edit_script_lcs (a b : list jsstring) :
  length (tokens_where is_eq (edit_script a b)) = lcs a b.
Proof.
  funelim (edit_script a b).
  - rewrite tokens_where_map_drop by done. by simp lcs.
  - rewrite tokens_where_map_drop by done. by rewrite lcs_nil_r.
  - rewrite tokens_where_cons, lcs_cons. simpl. rewrite decide_True by done. lia.
  - rewrite tokens_where_cons, lcs_cons. simpl. rewrite decide_False by done.
    apply Nat.leb_le in Heq. lia.
  - rewrite tokens_where_cons, lcs_cons. simpl. rewrite decide_False by done.
    apply Nat.leb_gt in Heq. lia.
Qed.

(** C3: the number of equal operations in the script of [diffTokens a b] is
    the length of a longest common subsequence of [a] and [b]: the tokens
    of the equal operations are a common subsequence, and no common
    subsequence is longer. *)
Theorem diffTokens_lcs (a b : list jsstring) :
  common_subsequence (tokens_where is_eq (diffTokens a b)) a b /\
  forall s, common_subsequence s a b ->
            length s <= length (tokens_where is_eq (diffTokens a b)).
Proof.
  rewrite diffTokens_script. split; [apply edit_script_common|].
  intros s [Ha Hb]. rewrite edit_script_lcs. by apply lcs_upper_bound.
Qed.

(** ** Tie-break *)

Lemma backtrack_tie (dp : table) (a b : list jsstring) (i j : nat) (ops : list Op) :
  i < length a -> j < length b -> a !! i <> b !! j ->
  dp_at dp (i + 1) j = dp_at dp i (j + 1) ->
  backtrack dp a b i j ops =
  backtrack dp a b (i + 1) j (ops ++ [mkOp Del (a !!! i)]).
Proof.
  funelim (backtrack dp a b i j ops); intros Hi Hj Hne Htie; try lia.
  - apply bool_decide_eq_true in Heq. done.
  - done.
  - apply Nat.leb_gt in Heq. lia.
Qed.

Lemma diffTokens_replace (A B C : jsstring) :
  B <> C ->
  diffTokens [A; B] [A; C] = [mkOp Eq A; mkOp Del B; mkOp Ins C].
Proof.
  intros Hne. rewrite diffTokens_script, edit_script_cons.
  rewrite decide_True by done. rewrite edit_script_cons.
  rewrite decide_False by done. simp lcs. simpl. by simp edit_script.
Qed.

(** C5: when, at a mismatch, the LCS length that remains after skipping a
    token of the base equals the one that remains after skipping a token of
    the revision, the backtracking loop pushes the delete and advances in
    the base; so [[A; B]] against [[A; C]] gives equal A, delete B,
    insert C. *)
Theorem diffTokens_tie_break :
  (forall (a b : list jsstring) (i j : nat) (ops : list Op),
      i < length a -> j < length b -> a !! i <> b !! j ->
      lcs (drop (i + 1) a) (drop j b) = lcs (drop i a) (drop (j + 1) b) ->
      backtrack (fill_table a b) a b i j ops =
      backtrack (fill_table a b) a b (i + 1) j (ops ++ [mkOp Del (a !!! i)])) /\
  (forall A B C : jsstring,
      B <> C -> diffTokens [A; B] [A; C] = [mkOp Eq A; mkOp Del B; mkOp Ins C]).
Proof.
  split.
  - intros a b i j ops Hi Hj Hne Htie. apply backtrack_tie; try done.
    by rewrite !fill_table_spec by lia.
  - apply diffTokens_replace.
Qed.

Lemma diffTokens_tie_break_witness :
  (let a := [js "A"; js "B"] in
   let b := [js "A"; js "C"] in
   backtrack (fill_table a b) a b 1 1 [mkOp Eq (js "A")] =
   backtrack (fill_table a b) a b 2 1 [mkOp Eq (js "A"); mkOp Del (js "B")]) /\
  diffTokens [js "A"; js "B"] [js "A"; js "C"] =
  [mkOp Eq (js "A"); mkOp Del (js "B"); mkOp Ins (js "C")].
Proof.
  split.
  - apply (proj1 diffTokens_tie_break [js "A"; js "B"] [js "A"; js "C"] 1 1
             [mkOp Eq (js "A")]).
    + simpl. lia.
    + simpl. lia.
    + vm_compute. discriminate.
    + reflexivity.
  - apply (proj2 diffTokens_tie_break). vm_compute. discriminate.
Defined.

(** ** Diffing a paragraph against itself *)

Lemma edit_script_same (t : list jsstring) : edit_script t t = map (mkOp Eq) t.
Proof.
  induction t as [|x t IH]; [by simp edit_script|].
  rewrite edit_script_cons, decide_True by done. simpl. by rewrite IH.
Qed.

Lemma flush_empty (nowIso : nat -> jsstring) (author : jsstring) (st : MergeState) :
  insBuf st = [] -> delBuf st = [] -> flush nowIso author st = st.
Proof. intros Hi Hd. unfold flush. rewrite Hd. simpl. by rewrite Hi. Qed.

Lemma merge_equal_ops (nowIso : nat -> jsstring) (author : jsstring)
    (toks : list jsstring) (out : list jsval) (id tick : nat) :
  foldl (merge_step nowIso author) (mkMerge out [] [] id tick) (map (mkOp Eq) toks) =
  mkMerge (out ++ map plainRun toks) [] [] id tick.
Proof.
  revert out. induction toks as [|x toks IH]; intros out.
  - simpl. by rewrite app_nil_r.
  - change (foldl (merge_step nowIso author) (mkMerge out [] [] id tick)
              (map (mkOp Eq) (x :: toks)))
      with (foldl (merge_step nowIso author)
              (mkMerge (out ++ [plainRun x]) [] [] id tick) (map (mkOp Eq) toks)).
    rewrite IH. simpl. by rewrite <- app_assoc.
Qed.

Lemma mergeRuns_equal_ops (nowIso : nat -> jsstring) (author : jsstring)
    (toks : list jsstring) (tick : nat) :
  mergeRuns nowIso (map (mkOp Eq) toks) author tick = (map plainRun toks, tick).
Proof.
  unfold mergeRuns. rewrite merge_equal_ops. by rewrite flush_empty.
Qed.

Lemma unwrapRun_plainRun (text : jsstring) : unwrapRun (plainRun text) = text_node "t" text.
Proof. reflexivity. Qed.

Lemma diffParagraph_same (nowIso : nat -> jsstring) (p : jsval) (author : jsstring)
    (options : Options) (tick : nat) :
  diffParagraph nowIso p p author options tick = (self_diff options p, tick).
Proof.
  unfold diffParagraph, self_diff.
  destruct (suppressWhitespaceOnly options); cbn [andb].
  - by rewrite bool_decide_true.
  - rewrite diffTokens_script, edit_script_same, mergeRuns_equal_ops.
    by rewrite map_map.
Qed.

Lemma assoc_set_prop (props : list (jsstring * jsval)) (k : jsstring) (v : jsval) :
  assoc (set_prop props k v) k = Some v.
Proof.
  induction props as [|[k' v'] props IH]; simpl.
  - by rewrite decide_True.
  - destruct (decide (k' = k)) as [->|Hne]; simpl.
    + by rewrite decide_True.
    + by rewrite decide_False.
Qed.

Lemma foldl_runText (runs : list jsval) (s : jsstring) :
  foldl (fun s r => s ++ runText r) s runs = s ++ concat (map runText runs).
Proof.
  revert s. induction runs as [|r runs IH]; intros s; simpl.
  - by rewrite app_nil_r.
  - by rewrite IH, app_assoc.
Qed.

Lemma paragraphText_plain_runs (props : list (jsstring * jsval)) (toks : list jsstring) :
  paragraphText (VObj (set_prop props (js "r") (VArr (map (text_node "t") toks)))) =
  concat toks.
Proof.
  unfold paragraphText, get. rewrite assoc_set_prop. simpl.
  rewrite foldl_runText, map_map. simpl. f_equal.
  induction toks as [|x toks IH]; [done|]. simpl. by rewrite IH.
Qed.

Lemma self_diff_text (options : Options) (p : jsval) :
  paragraphText (self_diff options p) = paragraphText p.
Proof.
  unfold self_diff. destruct (suppressWhitespaceOnly options); [done|].
  rewrite paragraphText_plain_runs. apply tokens_concat.
Qed.

Lemma truthy_at_lookup (xs : list jsval) (i : nat) (v : jsval) :
  xs !! i = Some v -> truthy_at xs i = if truthy v then Some v else None.
Proof. intros H. unfold truthy_at. by rewrite H. Qed.

Lemma align_loop_same (nowIso : nat -> jsstring) (input : DiffInput)
    (ps : list jsval) (count from : nat) (out : list jsval) (tick : nat) :
  from + count = length ps ->
  align_loop nowIso input ps ps (out, tick) from count =
  Returns (out ++ map (self_diff (options input))
                   (filter (fun p => truthy p = true) (drop from ps)), tick).
Proof.
  revert from out. induction count as [|count IH]; intros from out Hlen; simpl.
  - rewrite drop_ge by lia. by rewrite app_nil_r.
  - destruct (lookup_lt_is_Some_2 ps from) as [v Hv]; [lia|].
    unfold align_step. rewrite (truthy_at_lookup ps from v Hv).
    rewrite (drop_S ps v from Hv), filter_cons.
    destruct (truthy v) eqn:Htruthy.
    + rewrite diffParagraph_same, decide_True by done.
      rewrite IH by lia. rewrite Nat.add_1_r, <- app_assoc. done.
    + rewrite decide_False by done.
      rewrite IH by lia. by rewrite Nat.add_1_r.
Qed.

(** X20: [alignParagraphs] on a document and itself never throws.  It
    gives, for each truthy paragraph of the stripped document in order, the
    paragraph itself when whitespace-only changes are suppressed and
    otherwise the paragraph with its runs replaced by one plain run per
    token of its text.  [paragraphText] reads the same text from that
    paragraph as from the one it was made of, and when the differ runs no
    run of it is an insertion or deletion wrapper, has an author or holds
    deleted text. *)
Theorem identity_diff (nowIso : nat -> jsstring) (input : DiffInput) (doc : jsval) :
  alignParagraphs nowIso input doc doc =
    Returns (map (self_diff (options input))
               (filter (fun p => truthy p = true)
                  (paragraphsOf (stripTrackedChanges doc)))) /\
  (forall p, paragraphText (self_diff (options input) p) = paragraphText p) /\
  (forall p, suppressWhitespaceOnly (options input) = false ->
             no_tracked_markup (self_diff (options input) p)).
Proof.
  split; [|split].
  - unfold alignParagraphs. rewrite Nat.max_id.
    by rewrite align_loop_same by done.
  - intros p. apply self_diff_text.
  - intros p Hs. unfold no_tracked_markup, runsOf, self_diff. rewrite Hs.
    unfold get. rewrite assoc_set_prop. simpl.
    apply Forall_forall. intros r (tok & -> & _)%list_elem_of_fmap. reflexivity.
Qed.

Lemma merge_ins_ops (nowIso : nat -> jsstring) (author : jsstring)
    (toks : list jsstring) (st : MergeState) :
  foldl (merge_step nowIso author) st (map (mkOp Ins) toks) =
  mkMerge (outRuns st) (insBuf st ++ concat toks) (delBuf st) (nextId st) (ticks st).
Proof.
  revert st. induction toks as [|x toks IH]; intros st.
  - simpl. rewrite app_nil_r. by destruct st.
  - cbn [map foldl concat]. rewrite IH. unfold merge_step. cbn.
    by rewrite <- app_assoc.
Qed.

Lemma merge_del_ops (nowIso : nat -> jsstring) (author : jsstring)
    (toks : list jsstring) (st : MergeState) :
  foldl (merge_step nowIso author) st (map (mkOp Del) toks) =
  mkMerge (outRuns st) (insBuf st) (delBuf st ++ concat toks) (nextId st) (ticks st).
Proof.
  revert st. induction toks as [|x toks IH]; intros st.
  - simpl. rewrite app_nil_r. by destruct st.
  - cbn [map foldl concat]. rewrite IH. unfold merge_step. cbn.
    by rewrite <- app_assoc.
Qed.

Lemma mergeRuns_ins_ops (nowIso : nat -> jsstring) (author : jsstring)
    (toks : list jsstring) (tick : nat) :
  concat toks <> [] ->
  mergeRuns nowIso (map (mkOp Ins) toks) author tick =
  ([buildInsRuns nowIso (concat toks) author 1 tick], tick + 1).
Proof.
  intros Hne. unfold mergeRuns. rewrite merge_ins_ops. unfold flush. cbn.
  by rewrite bool_decide_false.
Qed.

Lemma mergeRuns_del_ops (nowIso : nat -> jsstring) (author : jsstring)
    (toks : list jsstring) (tick : nat) :
  concat toks <> [] ->
  mergeRuns nowIso (map (mkOp Del) toks) author tick =
  ([buildDelRuns nowIso (concat toks) author 1 tick], tick + 1).
Proof.
  intros Hne. unfold mergeRuns. rewrite merge_del_ops. unfold flush. cbn.
  rewrite !(bool_decide_false (concat toks = [])) by done. reflexivity.
Qed.

(** C1 on the code: equal tokens are not merged.  [mergeRuns] pushes one
    plain run for every equal operation (line 135), whereas it joins
    consecutive insertions, and consecutive deletions, into a single run.
    So a paragraph diffed against itself with the differ running has one
    plain run per token of its text, and the document whose one paragraph
    is [Hello world], diffed against itself by words, comes out with the
    three runs [Hello], [ ] and [world] and not with a single plain run:
    that paragraph is what an invocation on two archives holding this
    document hands to [builder.build]. *)
Theorem equal_tokens_not_merged :
  (forall nowIso toks author tick,
     mergeRuns nowIso (map (mkOp Eq) toks) author tick = (map plainRun toks, tick)) /\
  (forall nowIso toks author tick,
     concat toks <> [] ->
     mergeRuns nowIso (map (mkOp Ins) toks) author tick =
     ([buildInsRuns nowIso (concat toks) author 1 tick], tick + 1)) /\
  (forall nowIso toks author tick,
     concat toks <> [] ->
     mergeRuns nowIso (map (mkOp Del) toks) author tick =
     ([buildDelRuns nowIso (concat toks) author 1 tick], tick + 1)) /\
  (forall nowIso p author options tick,
     suppressWhitespaceOnly options = false ->
     runsOf (diffParagraph nowIso p p author options tick).1 =
     map (text_node "t") (tokenize (paragraphText p) (granularity options))) /\
  let three :=
    VObj [(js "r", VArr [text_node "t" (js "Hello"); text_node "t" (js " ");
                         text_node "t" (js "world")])] in
  alignParagraphs clock0 (input_of [] [] (options_of word false defaultLimits))
    (document (para "Hello world")) (document (para "Hello world")) = Returns [three] /\
  ~ single_plain_run three /\
  forall nowIso baseRejectsFirst generateAsync build JSON_stringify,
    docxDiffTracked nowIso sample_loadAsync baseRejectsFirst generateAsync sample_parse
      build JSON_stringify
      (input_of (js "Hello world") (js "Hello world")
         (options_of word false defaultLimits)) =
    match build (docOut [three]) with
    | Throws message => Throws message
    | Returns documentXml =>
        match build settings with
        | Throws message => Throws message
        | Returns settingsXml =>
            match generateAsync (outputZip documentXml settingsXml) with
            | Throws message => Throws message
            | Returns buffer => Returns (mkResult buffer [])
            end
        end
    end.
Proof.
  split; [intros; apply mergeRuns_equal_ops|].
  split; [intros; by apply mergeRuns_ins_ops|].
  split; [intros; by apply mergeRuns_del_ops|].
  split.
  { intros nowIso p author options tick Hs. rewrite diffParagraph_same.
    unfold self_diff, runsOf, get. rewrite Hs. cbn [fst].
    by rewrite assoc_set_prop. }
  intros three. split; [vm_compute; reflexivity|]. split.
  - intros [text Hruns]. vm_compute in Hruns. discriminate.
  - intros nowIso baseRejectsFirst generateAsync build JSON_stringify.
    vm_compute. reflexivity.
Qed.

(** ** Appended and removed paragraphs *)

(** A paragraph that only the revision has is pushed as one plain text run
    with its text; the wrapper [buildInsRuns] made, with the id, the author
    and the date, is left behind by [.ins.r[0]]. *)
Lemma align_step_revised_only (nowIso : nat -> jsstring) (input : DiffInput)
    (bs rs : list jsval) (out : list jsval) (tick i : nat) (rp : jsval) :
  truthy_at bs i = None -> truthy_at rs i = Some rp ->
  align_step nowIso input bs rs (out, tick) i =
  Returns (out ++ [VObj [(js "r", VArr [text_node "t" (paragraphText rp)])]], tick + 1).
Proof. intros Hb Hr. unfold align_step. by rewrite Hb, Hr. Qed.

(** A paragraph that only the base has is pushed as one run of deleted
    text, without the wrapper [buildDelRuns] made. *)
Lemma align_step_base_only (nowIso : nat -> jsstring) (input : DiffInput)
    (bs rs : list jsval) (out : list jsval) (tick i : nat) (bp : jsval) :
  truthy_at bs i = Some bp -> truthy_at rs i = None ->
  align_step nowIso input bs rs (out, tick) i =
  Returns (out ++ [VObj [(js "r", VArr [text_node "delText" (paragraphText bp)])]],
           tick + 1).
Proof. intros Hb Hr. unfold align_step. by rewrite Hb, Hr. Qed.

(** C6 on the code: with base [[P1]] and revision [[P1; P2]] the second
    paragraph of the output is one plain text run, with no insertion
    wrapper, author, id or date: the output is the one of diffing
    [[P1; P2]] against itself.  With base [[P1; P2]] and revision [[P1]]
    the second paragraph is one run of deleted text, again without the
    deletion wrapper and its id, author and date. *)
Theorem appended_paragraph_unmarked :
  let input := input_of [] [] (options_of word false defaultLimits) in
  let one := document (para "Hello") in
  let two := document (VArr [para "Hello"; para "World"]) in
  alignParagraphs clock0 input one two =
    Returns [VObj [(js "r", VArr [text_node "t" (js "Hello")])];
             VObj [(js "r", VArr [text_node "t" (js "World")])]] /\
  alignParagraphs clock0 input one two = alignParagraphs clock0 input two two /\
  alignParagraphs clock0 input two one =
    Returns [VObj [(js "r", VArr [text_node "t" (js "Hello")])];
             VObj [(js "r", VArr [text_node "delText" (js "World")])]].
Proof. repeat split; vm_compute; reflexivity. Qed.

(** ** Whitespace suppression *)




(** ** Revision stripper *)

(** C8 on the code: a paragraph with a plain run and an insertion is
    replaced as a whole by the content of the insertion, so the plain run
    beside it is lost; and when a node holds an insertion and a deletion,
    only the insertion's runs are kept. *)
Theorem stripTrackedChanges_drops_siblings :
  stripTrackedChanges
    (document (VObj [(js "r", run "kept");
                     (js "ins", VObj [(js "r", run "added"); (js "id", VStr (js "1"))])])) =
    document (VObj [(js "r", run "added"); (js "id", VStr (js "1"))]) /\
  stripTrackedChanges
    (document (VObj [(js "ins", VObj [(js "r", VArr [run "a"; run "b"])]);
                     (js "del", VObj [(js "r", VObj [(js "delText", VStr (js "old"))])])])) =
    document (VObj [(js "r", VArr [run "a"; run "b"])]).
Proof. split; vm_compute; reflexivity. Qed.

(** ** Malformed document part *)

Section Libraries.

Variable nowIso : nat -> jsstring.
Variable loadAsync : Buffer -> jsstring + JSZip.
Variable baseRejectsFirst : bool.
Variable generateAsync : JSZip -> outcome Buffer.
Variable parse : jsstring -> option jsval.
Variable build : jsval -> outcome jsstring.
Variable JSON_stringify : jsval -> jsstring.

Lemma loadXml_malformed (z : JSZip) (path : jsstring) (ws : list jsstring) (f : ZipObject)
    (xml : jsstring) :
  zip_file z path = Some f -> content f = Returns xml -> parse xml = None ->
  loadXml parse z path ws =
  Returns (None, ws ++ [js "Malformed " ++ path ++ js "; using raw fallback"]).
Proof. intros Hf Hc Hp. unfold loadXml. by rewrite Hf, Hc, Hp. Qed.

(** What [loadXml] does on the document part, by what reading it gives. *)
Lemma loadXml_read_error (z : JSZip) (ws : list jsstring) :
  match read_error z with
  | Some message => loadXml parse z (js "word/document.xml") ws = Throws message
  | None => exists doc ws', loadXml parse z (js "word/document.xml") ws = Returns (doc, ws')
  end.
Proof.
  unfold read_error, loadXml.
  destruct (zip_file z (js "word/document.xml")) as [f|]; [|by eexists _, _].
  destruct (content f) as [xml|message]; [|done].
  destruct (parse xml); by eexists _, _.
Qed.

(** An invocation on two archives that load, one of which gives no
    document tree, aborts with [abort_message]. *)
Lemma docxDiffTracked_no_tree (input : DiffInput) (baseZip revZip : JSZip) :
  let limits := default defaultLimits (limits (options input)) in
  safeLoadDocx loadAsync (base input) limits = Returns baseZip ->
  safeLoadDocx loadAsync (revised input) limits = Returns revZip ->
  ((exists ws ws', loadXml parse baseZip (js "word/document.xml") ws = Returns (None, ws')) \/
   (exists ws ws', loadXml parse revZip (js "word/document.xml") ws = Returns (None, ws'))) ->
  docxDiffTracked nowIso loadAsync baseRejectsFirst generateAsync parse build
    JSON_stringify input =
  Throws (abort_message baseZip revZip).
Proof.
  intros limits Hbase Hrev Hnone. unfold docxDiffTracked.
  fold limits. rewrite Hbase, Hrev. unfold abort_message.
  pose proof (loadXml_read_error baseZip []) as Hb.
  destruct (read_error baseZip) as [message|]; [by rewrite Hb|].
  destruct Hb as (baseDoc & ws1 & Hb). rewrite Hb.
  pose proof (loadXml_read_error revZip ws1) as Hr.
  destruct (read_error revZip) as [message|]; [by rewrite Hr|].
  destruct Hr as (revDoc & ws2 & Hr). rewrite Hr.
  destruct baseDoc as [baseDoc|]; [|done].
  destruct revDoc as [revDoc|]; [|done].
  exfalso. destruct Hnone as [(ws & ws' & Hn)|(ws & ws' & Hn)].
  - revert Hb Hn. unfold loadXml.
    destruct (zip_file baseZip _) as [f|]; [|done].
    destruct (content f) as [xml|]; [|done]. by destruct (parse xml).
  - revert Hr Hn. unfold loadXml.
    destruct (zip_file revZip _) as [f|]; [|done].
    destruct (content f) as [xml|]; [|done]. by destruct (parse xml).
Qed.

(** C9 on the code: when both archives load and the document part of one
    of them is present and read but does not parse, the invocation throws;
    it returns no package and no warnings list.  The error is the
    missing-part error, unless the document part of one of the archives
    cannot be read: the invocation then rejects with the error of that
    read. *)
Theorem malformed_document_aborts (input : DiffInput) (baseZip revZip : JSZip)
    (f : ZipObject) (xml : jsstring) :
  let limits := default defaultLimits (limits (options input)) in
  safeLoadDocx loadAsync (base input) limits = Returns baseZip ->
  safeLoadDocx loadAsync (revised input) limits = Returns revZip ->
  (zip_file baseZip (js "word/document.xml") = Some f \/
   zip_file revZip (js "word/document.xml") = Some f) ->
  content f = Returns xml ->
  parse xml = None ->
  docxDiffTracked nowIso loadAsync baseRejectsFirst generateAsync parse build
    JSON_stringify input =
  Throws (abort_message baseZip revZip) /\
  (read_error baseZip = None -> read_error revZip = None ->
   docxDiffTracked nowIso loadAsync baseRejectsFirst generateAsync parse build
     JSON_stringify input =
   Throws (js "Missing word/document.xml in one of the DOCX files")).
Proof.
  intros limits Hbase Hrev Hf Hcontent Hparse.
  assert (docxDiffTracked nowIso loadAsync baseRejectsFirst generateAsync parse build
            JSON_stringify input = Throws (abort_message baseZip revZip)) as Habort.
  { apply docxDiffTracked_no_tree; [done|done|].
    destruct Hf as [Hf|Hf]; [left|right]; exists [];
      eexists; by apply (loadXml_malformed _ _ _ f xml). }
  split; [done|].
  intros Hb Hr. rewrite Habort. unfold abort_message. by rewrite Hb, Hr.
Qed.

(** ** The unused limit *)

Lemma exceeds_cap_ext (l1 l2 : ResourceLimits) (total : Z) (files : JSZip) :
  maxTotalUnzippedBytes l1 = maxTotalUnzippedBytes l2 ->
  exceeds_cap l1 total files = exceeds_cap l2 total files.
Proof.
  intros Hcap. revert total. induction files as [|f files IH]; intros total; [done|].
  simpl. rewrite Hcap. by rewrite IH.
Qed.

Lemma safeLoadDocx_ext (buf : Buffer) (l1 l2 : ResourceLimits) :
  maxTotalUnzippedBytes l1 = maxTotalUnzippedBytes l2 ->
  maxEntries l1 = maxEntries l2 ->
  safeLoadDocx loadAsync buf l1 = safeLoadDocx loadAsync buf l2.
Proof.
  intros Hcap Hentries. unfold safeLoadDocx.
  destruct (loadAsync buf) as [message|zip]; [done|].
  by rewrite Hentries, (exceeds_cap_ext l1 l2 0 zip Hcap).
Qed.

Lemma diffParagraph_ext (baseP revP : jsval) (author : jsstring) (o1 o2 : Options)
    (tick : nat) :
  granularity o1 = granularity o2 ->
  suppressWhitespaceOnly o1 = suppressWhitespaceOnly o2 ->
  diffParagraph nowIso baseP revP author o1 tick =
  diffParagraph nowIso baseP revP author o2 tick.
Proof. intros Hg Hs. unfold diffParagraph. by rewrite Hg, Hs. Qed.

Lemma align_step_ext (input1 input2 : DiffInput) (bs rs : list jsval)
    (st : list jsval * nat) (i : nat) :
  author input1 = author input2 ->
  granularity (options input1) = granularity (options input2) ->
  suppressWhitespaceOnly (options input1) = suppressWhitespaceOnly (options input2) ->
  align_step nowIso input1 bs rs st i = align_step nowIso input2 bs rs st i.
Proof.
  intros Ha Hg Hs. unfold align_step. destruct st as [out tick].
  rewrite Ha.
  destruct (truthy_at bs i) as [bp|], (truthy_at rs i) as [rp|]; try done.
  by rewrite (diffParagraph_ext bp rp _ (options input1) (options input2) tick Hg Hs).
Qed.

Lemma align_loop_ext (input1 input2 : DiffInput) (bs rs : list jsval)
    (count from : nat) (st : list jsval * nat) :
  author input1 = author input2 ->
  granularity (options input1) = granularity (options input2) ->
  suppressWhitespaceOnly (options input1) = suppressWhitespaceOnly (options input2) ->
  align_loop nowIso input1 bs rs st from count =
  align_loop nowIso input2 bs rs st from count.
Proof.
  intros Ha Hg Hs. revert from st.
  induction count as [|count IH]; intros from st; [done|].
  simpl. rewrite (align_step_ext input1 input2) by done.
  destruct (align_step nowIso input2 bs rs st from); [apply IH|done].
Qed.

Lemma alignParagraphs_ext (input1 input2 : DiffInput) (baseDoc revDoc : jsval) :
  author input1 = author input2 ->
  granularity (options input1) = granularity (options input2) ->
  suppressWhitespaceOnly (options input1) = suppressWhitespaceOnly (options input2) ->
  alignParagraphs nowIso input1 baseDoc revDoc =
  alignParagraphs nowIso input2 baseDoc revDoc.
Proof.
  intros Ha Hg Hs. unfold alignParagraphs.
  by rewrite (align_loop_ext input1 input2) by done.
Qed.

(** C10: [limits.maxEntrySize] is never consulted.  Two invocations on the
    same archives and author, with the same clock and option values that
    differ at most in [limits.maxEntrySize], have the same outcome: the
    same error, or the same buffer and the same warnings. *)
Theorem maxEntrySize_ignored (input1 input2 : DiffInput) :
  base input1 = base input2 ->
  revised input1 = revised input2 ->
  author input1 = author input2 ->
  same_but_maxEntrySize (options input1) (options input2) ->
  docxDiffTracked nowIso loadAsync baseRejectsFirst generateAsync parse build
    JSON_stringify input1 =
  docxDiffTracked nowIso loadAsync baseRejectsFirst generateAsync parse build
    JSON_stringify input2.
Proof.
  intros Hbase Hrev Hauthor
    (Hg & Hs & _ & _ & _ & _ & Hpolicy & l1 & l2 & Hl1 & Hl2 & Hcap & Hentries & _).
  unfold docxDiffTracked. rewrite Hl1, Hl2, Hbase, Hrev, Hpolicy. simpl.
  rewrite (safeLoadDocx_ext (base input2) l1 l2 Hcap Hentries).
  rewrite (safeLoadDocx_ext (revised input2) l1 l2 Hcap Hentries).
  destruct (safeLoadDocx loadAsync (base input2) l2) as [baseZip|];
    destruct (safeLoadDocx loadAsync (revised input2) l2) as [revZip|]; try done.
  destruct (loadXml parse baseZip (js "word/document.xml") []) as [[baseDoc ws1]|]; [|done].
  destruct (loadXml parse revZip (js "word/document.xml") ws1) as [[revDoc ws2]|]; [|done].
  destruct baseDoc as [baseDoc|], revDoc as [revDoc|]; try done.
  by rewrite (alignParagraphs_ext input1 input2) by done.
Qed.

End Libraries.

Lemma malformed_document_aborts_witness :
  docxDiffTracked clock0 sample_loadAsync true sample_generateAsync (fun _ => None)
    sample_build sample_stringify
    (input_of (js "<w:document") (js "<w:document/>") (options_of word true defaultLimits)) =
  Throws (js "Missing word/document.xml in one of the DOCX files").
Proof.
  apply (malformed_document_aborts clock0 sample_loadAsync true sample_generateAsync
           (fun _ => None) sample_build sample_stringify
           (input_of (js "<w:document") (js "<w:document/>")
              (options_of word true defaultLimits))
           [mkZipObject (js "word/document.xml") false (Some 11%Z)
              (Returns (js "<w:document"))]
           [mkZipObject (js "word/document.xml") false (Some 13%Z)
              (Returns (js "<w:document/>"))]
           (mkZipObject (js "word/document.xml") false (Some 11%Z)
              (Returns (js "<w:document")))
           (js "<w:document")).
  - reflexivity.
  - reflexivity.
  - left. reflexivity.
  - reflexivity.
  - reflexivity.
  - reflexivity.
  - reflexivity.
Defined.

Lemma maxEntrySize_ignored_witness :
  docxDiffTracked clock0 sample_loadAsync true sample_generateAsync sample_parse
    sample_build sample_stringify
    (input_of (js "Hello world") (js "Hello there")
       (options_of word false (mkLimits 1000 10 1 4000))) =
  docxDiffTracked clock0 sample_loadAsync true sample_generateAsync sample_parse
    sample_build sample_stringify
    (input_of (js "Hello world") (js "Hello there")
       (options_of word false (mkLimits 1000 10 5000000 4000))).
Proof.
  apply (maxEntrySize_ignored clock0 sample_loadAsync true sample_generateAsync
           sample_parse sample_build sample_stringify).
  - reflexivity.
  - reflexivity.
  - reflexivity.
  - unfold same_but_maxEntrySize. simpl. repeat (split; [reflexivity|]).
    exists (mkLimits 1000 10 1 4000), (mkLimits 1000 10 5000000 4000).
    repeat split; reflexivity.
Defined.

(** ** Reads that the model gives a default *)

(** The table is read only inside its bounds. *)
Lemma dp_read_in_range (m n : nat) (dp : table) (i j : nat) :
  shaped m n dp -> i <= m -> j <= n ->
  exists row v, dp !! i = Some row /\ row !! j = Some v /\ dp_at dp i j = v.
Proof.
  intros [Hlen Hrows] Hi Hj.
  destruct (lookup_lt_is_Some_2 dp i) as [row Hrow]; [lia|].
  destruct (lookup_lt_is_Some_2 row j) as [v Hv]; [rewrite (Hrows _ _ Hrow); lia|].
  exists row, v. unfold dp_at. by rewrite Hrow, Hv.
Qed.

Lemma fill_table_shaped (a b : list jsstring) :
  shaped (length a) (length b) (fill_table a b).
Proof.
  unfold fill_table.
  by destruct (fill_rows_filled a b (length a) (dp_init (length a) (length b)))
    as [Hshape _]; [|apply dp_init_filled|].
Qed.

Lemma flush_wrapped (nowIso : nat -> jsstring) (author : jsstring) (st : MergeState) :
  Forall (fun x => wrapped x = true) (outRuns st) ->
  Forall (fun x => wrapped x = true) (outRuns (flush nowIso author st)).
Proof.
  intros Hst. unfold flush.
  destruct (bool_decide (delBuf st = [])); simpl;
    destruct (bool_decide (insBuf st = [])); simpl;
    repeat (apply Forall_app; split); try done;
    by apply Forall_singleton.
Qed.

Lemma merge_step_wrapped (nowIso : nat -> jsstring) (author : jsstring)
    (st : MergeState) (op : Op) :
  Forall (fun x => wrapped x = true) (outRuns st) ->
  Forall (fun x => wrapped x = true) (outRuns (merge_step nowIso author st op)).
Proof.
  intros Hst. unfold merge_step. destruct (type op); simpl; [|done|done].
  apply Forall_app. split; [by apply flush_wrapped|by apply Forall_singleton].
Qed.

(** Every run [mergeRuns] returns has the key [r], [ins] or [del]: the
    last case of [unwrapRun] is not reached in [diffParagraph]. *)
Lemma mergeRuns_wrapped (nowIso : nat -> jsstring) (ops : list Op)
    (author : jsstring) (tick : nat) :
  Forall (fun x => wrapped x = true) (mergeRuns nowIso ops author tick).1.
Proof.
  unfold mergeRuns. simpl. apply flush_wrapped.
  assert (forall st, Forall (fun x => wrapped x = true) (outRuns st) ->
            Forall (fun x => wrapped x = true)
              (outRuns (foldl (merge_step nowIso author) st ops))) as Hfold.
  { induction ops as [|op ops IH]; intros st Hst; [done|].
    simpl. by apply IH, merge_step_wrapped. }
  by apply Hfold.
Qed.

(** ** Concrete runs *)

Example tokenizeWords_hello :
  tokenizeWords (js "Hello  world") = [js "Hello"; js "  "; js "world"].
Proof. reflexivity. Qed.

Example tokenizeWords_punctuation :
  tokenizeWords (js " a,b  c-d! ") =
  [js " "; js "a"; js ","; js "b"; js "  "; js "c"; js "-"; js "d"; js "!"; js " "].
Proof. reflexivity. Qed.

Example tokenizeWords_empty : tokenizeWords [] = [].
Proof. reflexivity. Qed.

Example trim_example : trim (js "  Hello world ") = js "Hello world".
Proof. reflexivity. Qed.

Example fill_table_example :
  fill_table [js "A"; js "B"] [js "A"; js "C"] = [[1; 0; 0]; [0; 0; 0]; [0; 0; 0]].
Proof. reflexivity. Qed.

Example diffTokens_example :
  diffTokens [js "a"; js "b"; js "c"; js "d"] [js "c"; js "a"; js "d"; js "b"] =
  [mkOp Del (js "a"); mkOp Del (js "b"); mkOp Eq (js "c"); mkOp Ins (js "a");
   mkOp Eq (js "d"); mkOp Ins (js "b")].
Proof. reflexivity. Qed.

Example mergeRuns_example :
  mergeRuns clock0 [mkOp Eq (js "a"); mkOp Del (js "b"); mkOp Del (js "c");
                    mkOp Ins (js "d"); mkOp Eq (js "e")] (js "AutoDiff") 0 =
  ([plainRun (js "a"); buildDelRuns clock0 (js "bc") (js "AutoDiff") 1 0;
    buildInsRuns clock0 (js "d") (js "AutoDiff") 2 1; plainRun (js "e")], 2).
Proof. reflexivity. Qed.

Example docxDiffTracked_example :
  docxDiffTracked clock0 sample_loadAsync true sample_generateAsync sample_parse
    sample_build sample_stringify
    (input_of (js "Hello world") (js "Hello there") (options_of word false defaultLimits)) =
  Returns (mkResult (contentTypes ++ relsRels ++ js "Hello ") []).
Proof. vm_compute. reflexivity. Qed.

Example docxDiffTracked_too_many_entries :
  docxDiffTracked clock0 sample_loadAsync true sample_generateAsync sample_parse
    sample_build sample_stringify
    (input_of (js "Hello world") (js "Hello there")
       (options_of word false (mkLimits 1000 0 1 4000))) =
  Throws (js "Failed to read DOCX: DOCX too many entries").
Proof. reflexivity. Qed.

(** * Further properties *)

(** ** Edge cases and size of the edit script *)

(** X3: against an empty base every token is inserted, and against an empty
    revision every token is deleted, in order. *)
Theorem diffTokens_empty (ts : list jsstring) :
  diffTokens [] ts = map (mkOp Ins) ts /\ diffTokens ts [] = map (mkOp Del) ts.
Proof.
  rewrite !diffTokens_script. split; [by simp edit_script|apply edit_script_nil_r].
Qed.

(** X4: a sequence diffed against itself gives one equal operation per
    token and nothing else. *)
Theorem diffTokens_same (ts : list jsstring) : diffTokens ts ts = map (mkOp Eq) ts.
Proof. rewrite diffTokens_script. apply edit_script_same. Qed.

Lemma tokens_where_split (ops : list Op) :
  length (tokens_where is_eq_or_del ops) =
    length (tokens_where is_eq ops) + length (tokens_where is_del ops) /\
  length (tokens_where is_eq_or_ins ops) =
    length (tokens_where is_eq ops) + length (tokens_where is_ins ops) /\
  length ops = length (tokens_where is_eq ops) + length (tokens_where is_del ops)
               + length (tokens_where is_ins ops).
Proof.
  induction ops as [|[t v] ops (IH1 & IH2 & IH3)]; [done|].
  rewrite !tokens_where_cons. destruct t; simpl; lia.
Qed.

Lemma lcs_le (a b : list jsstring) : lcs a b <= length a /\ lcs a b <= length b.
Proof.
  rewrite <- edit_script_lcs.
  destruct (edit_script_common a b) as [Ha Hb].
  split; by apply sublist_length.
Qed.

(** X5: the script has as many deletes as the base has tokens beyond a
    longest common subsequence and as many inserts as the revision has
    beyond it, so it has [|a| + |b| - lcs] operations in all. *)
Theorem diffTokens_counts (a b : list jsstring) :
  length (tokens_where is_del (diffTokens a b)) = length a - lcs a b /\
  length (tokens_where is_ins (diffTokens a b)) = length b - lcs a b /\
  length (diffTokens a b) = length a + length b - lcs a b.
Proof.
  rewrite diffTokens_script.
  destruct (tokens_where_split (edit_script a b)) as (H1 & H2 & H3).
  rewrite edit_script_base in H1. rewrite edit_script_revised in H2.
  rewrite edit_script_lcs in *. destruct (lcs_le a b). lia.
Qed.

Lemma lcs_disjoint (a b : list jsstring) :
  (forall x, In x a -> ~ In x b) -> lcs a b = 0.
Proof.
  intros Hdisj. rewrite <- edit_script_lcs.
  destruct (edit_script_common a b) as [Ha Hb].
  destruct (tokens_where is_eq (edit_script a b)) as [|x s]; [done|].
  exfalso. apply (Hdisj x); apply list_elem_of_In.
  - apply (elem_of_submseteq (x :: s)); [by left|by apply sublist_submseteq].
  - apply (elem_of_submseteq (x :: s)); [by left|by apply sublist_submseteq].
Qed.

Lemma edit_script_no_common (a b : list jsstring) :
  lcs a b = 0 -> edit_script a b = map (mkOp Del) a ++ map (mkOp Ins) b.
Proof.
  revert b. induction a as [|x a IH]; intros b Hz; [by simp edit_script|].
  destruct b as [|y b]; [by rewrite edit_script_nil_r, app_nil_r|].
  rewrite edit_script_cons. rewrite lcs_cons in Hz.
  destruct (decide (x = y)); [lia|].
  assert ((lcs (x :: a) b <=? lcs a (y :: b)) = true) as -> by (apply Nat.leb_le; lia).
  simpl. f_equal. apply IH. lia.
Qed.

(** X6: when the two sequences share no token, the script is all the
    deletes followed by all the inserts. *)
Theorem diffTokens_disjoint (a b : list jsstring) :
  (forall x, In x a -> ~ In x b) ->
  diffTokens a b = map (mkOp Del) a ++ map (mkOp Ins) b.
Proof.
  intros Hdisj. rewrite diffTokens_script.
  by apply edit_script_no_common, lcs_disjoint.
Qed.

Lemma diffTokens_disjoint_witness :
  diffTokens [js "old"; js " "; js "text"] [js "new"] =
  [mkOp Del (js "old"); mkOp Del (js " "); mkOp Del (js "text"); mkOp Ins (js "new")].
Proof.
  apply (diffTokens_disjoint [js "old"; js " "; js "text"] [js "new"]).
  intros x Hx [<-|[]]. simpl in Hx.
  destruct Hx as [Hx|[Hx|[Hx|[]]]]; vm_compute in Hx; discriminate.
Defined.

(** ** The table *)

(** X7: when the two loops of lines 100-104 are done, the table has
    [|a| + 1] rows of [|b| + 1] cells, and the cell [(i, j)] holds the
    length of a longest common subsequence of [a] from [i] and [b] from
    [j]. *)
Theorem fill_table_holds_lcs (a b : list jsstring) (i j : nat) :
  i <= length a -> j <= length b ->
  exists row,
    length (fill_table a b) = length a + 1 /\
    fill_table a b !! i = Some row /\ length row = length b + 1 /\
    row !! j = Some (lcs (drop i a) (drop j b)).
Proof.
  intros Hi Hj.
  destruct (fill_table_shaped a b) as [Hlen Hrows].
  destruct (dp_read_in_range _ _ _ i j (fill_table_shaped a b) Hi Hj)
    as (row & v & Hrow & Hv & Hat).
  exists row. rewrite (fill_table_spec a b i j Hi Hj) in Hat. subst v.
  eauto.
Qed.

Lemma fill_table_holds_lcs_witness :
  exists row,
    length (fill_table [js "a"; js "b"; js "c"] [js "b"; js "c"; js "d"]) = 3 + 1 /\
    fill_table [js "a"; js "b"; js "c"] [js "b"; js "c"; js "d"] !! 0 = Some row /\
    length row = 3 + 1 /\
    row !! 0 = Some (lcs [js "a"; js "b"; js "c"] [js "b"; js "c"; js "d"]).
Proof.
  apply (fill_table_holds_lcs [js "a"; js "b"; js "c"] [js "b"; js "c"; js "d"] 0 0);
    simpl; lia.
Defined.

(** ** The kinds of token *)

(** X2: every token of the word tokenizer is non-empty and of one kind: all
    whitespace, all word characters ([A-Za-z0-9_]), or all other
    characters. *)
Theorem tokenizeWords_uniform (text : jsstring) :
  Forall (fun tok => tok <> [] /\ uniform_token tok = true) (tokenizeWords text).
Proof.
  unfold tokenizeWords. apply Forall_forall. intros tok [Hne Htok]%list_elem_of_filter.
  split; [done|].
  clear Hne. revert tok Htok. apply Forall_forall.
  destruct text as [|c text]; [by apply Forall_singleton|].
  unfold split_words. apply split_loop_uniform; [done|apply segment_ok_empty|done].
Qed.

(** ** The stripper on documents without tracked changes *)

Section jsval_induction.

Variable P : jsval -> Prop.
Hypothesis P_str : forall s, P (VStr s).
Hypothesis P_num : forall n, P (VNum n).
Hypothesis P_bool : forall b, P (VBool b).
Hypothesis P_arr : forall items, Forall P items -> P (VArr items).
Hypothesis P_obj : forall props, Forall (fun kv => P kv.2) props -> P (VObj props).

Fixpoint jsval_tree_ind (v : jsval) : P v :=
  match v with
  | VStr s => P_str s
  | VNum n => P_num n
  | VBool b => P_bool b
  | VArr items =>
      P_arr items
        ((fix go (l : list jsval) : Forall P l :=
            match l with
            | [] => @List.Forall_nil _ P
            | x :: l' => @List.Forall_cons _ P x l' (jsval_tree_ind x) (go l')
            end) items)
  | VObj props =>
      P_obj props
        ((fix go (l : list (jsstring * jsval)) : Forall (fun kv => P kv.2) l :=
            match l with
            | [] => @List.Forall_nil _ (fun kv => P kv.2)
            | kv :: l' => @List.Forall_cons _ (fun kv => P kv.2) kv l' (jsval_tree_ind kv.2) (go l')
            end) props)
  end.

End jsval_induction.

Lemma map_id_Forall {A} (f : A -> A) (l : list A) :
  Forall (fun x => f x = x) l -> map f l = l.
Proof. induction 1 as [|x l Hx _ IH]; simpl; [done|]. by rewrite Hx, IH. Qed.

Lemma stripTrackedChanges_array (items : list jsval) :
  stripTrackedChanges (VArr items) = VArr (map strip_member items).
Proof. reflexivity. Qed.

Lemma stripTrackedChanges_object (props : list (jsstring * jsval)) :
  trackedContent (VObj props) = None ->
  stripTrackedChanges (VObj props) =
  VObj (map (fun kv => (kv.1, strip_member kv.2)) props).
Proof.
  intros H. cbn [stripTrackedChanges]. rewrite H. f_equal.
  apply map_ext. by intros [k []].
Qed.

Lemma strip_clean_both (v : jsval) :
  wrapper_free v = true -> stripTrackedChanges v = v /\ strip_member v = v.
Proof.
  induction v as [s|n|b|items IH|props IH] using jsval_tree_ind; try done.
  - intros Hfree. simpl in Hfree.
    assert (Forall (fun x => stripTrackedChanges x = x /\ strip_member x = x) items)
      as Hall.
    { apply Forall_forall. intros x Hx. rewrite Forall_forall in IH.
      apply (IH x Hx). rewrite forallb_forall in Hfree.
      apply Hfree. by apply list_elem_of_In. }
    split.
    + rewrite stripTrackedChanges_array. f_equal. apply map_id_Forall.
      eapply Forall_impl; [exact Hall|]. by intros x [_ ?].
    + simpl. f_equal. apply map_id_Forall.
      eapply Forall_impl; [exact Hall|]. by intros x [? _].
  - intros Hfree. simpl in Hfree.
    destruct (trackedContent (VObj props)) eqn:Htracked; [done|].
    assert (stripTrackedChanges (VObj props) = VObj props) as Hstrip.
    { rewrite stripTrackedChanges_object by done. f_equal. apply map_id_Forall.
      apply Forall_forall. intros [k x] Hx. rewrite Forall_forall in IH.
      simpl. f_equal. apply (IH (k, x) Hx). rewrite forallb_forall in Hfree.
      apply (Hfree (k, x)). by apply list_elem_of_In. }
    split; [done|]. exact Hstrip.
Qed.

(** X8: a tree without tracked-change members comes out of the stripper as
    it went in. *)
Theorem stripTrackedChanges_clean (v : jsval) :
  wrapper_free v = true -> stripTrackedChanges v = v.
Proof. intros Hfree. by destruct (strip_clean_both v Hfree). Qed.

Lemma stripTrackedChanges_clean_witness :
  stripTrackedChanges (document (VArr [para "Hello world"; para "Second"])) =
  document (VArr [para "Hello world"; para "Second"]).
Proof.
  apply (stripTrackedChanges_clean (document (VArr [para "Hello world"; para "Second"]))).
  reflexivity.
Defined.

(** ** What the run synthesizer keeps *)

Section Synthesizer.

Variable nowIso : nat -> jsstring.
Variable author : jsstring.

Lemma flush_spec (st : MergeState) :
  flush nowIso author st =
  mkMerge (outRuns st ++ flush_del nowIso author st ++ flush_ins nowIso author st) [] []
    (nextId st + length (flush_del nowIso author st ++ flush_ins nowIso author st))
    (ticks st + length (flush_del nowIso author st ++ flush_ins nowIso author st)).
Proof.
  destruct st as [out ib db id tk]. unfold flush, flush_ins, flush_del. simpl.
  destruct (decide (db = [])) as [Hd|Hd], (decide (ib = [])) as [Hi|Hi].
  - rewrite !(bool_decide_true _ Hd). simpl. rewrite !(bool_decide_true _ Hi). simpl.
    subst. by rewrite app_nil_r, !Nat.add_0_r.
  - rewrite !(bool_decide_true _ Hd). simpl. rewrite !(bool_decide_false _ Hi). simpl.
    subst. by rewrite !Nat.add_0_r.
  - rewrite !(bool_decide_false _ Hd). simpl. rewrite !(bool_decide_true _ Hi). simpl.
    by subst.
  - rewrite !(bool_decide_false _ Hd). simpl. rewrite !(bool_decide_false _ Hi). simpl.
    rewrite <- ?app_assoc, <- ?Nat.add_assoc. reflexivity.
Qed.


Lemma readers_plainRun (text : jsstring) :
  runText (unwrapRun (plainRun text)) = text /\
  revisedText (unwrapRun (plainRun text)) = text /\
  baseText (unwrapRun (plainRun text)) = text /\
  get (unwrapRun (plainRun text)) "id" = None /\
  runKind (unwrapRun (plainRun text)) = Eq.
Proof.
  repeat split; try reflexivity.
  - unfold revisedText. simpl. apply app_nil_r.
  - unfold baseText. simpl. apply app_nil_r.
Qed.

Lemma readers_buildInsRuns (text : jsstring) (id tick : nat) :
  runText (unwrapRun (buildInsRuns nowIso text author id tick)) = [] /\
  revisedText (unwrapRun (buildInsRuns nowIso text author id tick)) = text /\
  baseText (unwrapRun (buildInsRuns nowIso text author id tick)) = [] /\
  get (unwrapRun (buildInsRuns nowIso text author id tick)) "id"
    = Some (VStr (String_of_nat id)) /\
  runKind (unwrapRun (buildInsRuns nowIso text author id tick)) = Ins.
Proof. repeat split; reflexivity. Qed.

Lemma readers_buildDelRuns (text : jsstring) (id tick : nat) :
  runText (unwrapRun (buildDelRuns nowIso text author id tick)) = [] /\
  revisedText (unwrapRun (buildDelRuns nowIso text author id tick)) = [] /\
  baseText (unwrapRun (buildDelRuns nowIso text author id tick)) = text /\
  get (unwrapRun (buildDelRuns nowIso text author id tick)) "id"
    = Some (VStr (String_of_nat id)) /\
  runKind (unwrapRun (buildDelRuns nowIso text author id tick)) = Del.
Proof. repeat split; reflexivity. Qed.

Lemma read_runs_app (reader : jsval -> jsstring) (l1 l2 : list jsval) :
  read_runs reader (l1 ++ l2) = read_runs reader l1 ++ read_runs reader l2.
Proof. unfold read_runs. by rewrite map_app, concat_app. Qed.

Lemma read_flush_del (st : MergeState) :
  read_runs runText (flush_del nowIso author st) = [] /\
  read_runs revisedText (flush_del nowIso author st) = [] /\
  read_runs baseText (flush_del nowIso author st) = delBuf st.
Proof.
  unfold flush_del. destruct (decide (delBuf st = [])) as [Hd|Hd].
  - rewrite (bool_decide_true _ Hd). by rewrite Hd.
  - rewrite (bool_decide_false _ Hd). unfold read_runs. cbn [map concat].
    destruct (readers_buildDelRuns (delBuf st) (nextId st) (ticks st))
      as (-> & -> & -> & _). by rewrite !app_nil_r.
Qed.

Lemma read_flush_ins (st : MergeState) :
  read_runs runText (flush_ins nowIso author st) = [] /\
  read_runs revisedText (flush_ins nowIso author st) = insBuf st /\
  read_runs baseText (flush_ins nowIso author st) = [].
Proof.
  unfold flush_ins. destruct (decide (insBuf st = [])) as [Hi|Hi].
  - rewrite (bool_decide_true _ Hi). by rewrite Hi.
  - rewrite (bool_decide_false _ Hi). unfold read_runs. cbn [map concat].
    match goal with
    | |- context [buildInsRuns nowIso ?t author ?i ?k] =>
        destruct (readers_buildInsRuns t i k) as (-> & -> & -> & _)
    end. by rewrite !app_nil_r.
Qed.

Lemma flush_texts (st : MergeState) :
  texts_of (flush nowIso author st) = texts_of st.
Proof.
  rewrite flush_spec. unfold texts_of. simpl. rewrite !read_runs_app.
  destruct (read_flush_del st) as (-> & -> & ->).
  destruct (read_flush_ins st) as (-> & -> & ->).
  by rewrite !app_nil_r.
Qed.

Lemma flush_buffers (st : MergeState) :
  insBuf (flush nowIso author st) = [] /\ delBuf (flush nowIso author st) = [].
Proof. by rewrite flush_spec. Qed.

Lemma merge_step_texts (st : MergeState) (op : Op) :
  texts_of (merge_step nowIso author st op) =
  (add_token is_eq op (texts_of st).1.1,
   add_token is_eq_or_ins op (texts_of st).1.2,
   add_token is_eq_or_del op (texts_of st).2).
Proof.
  destruct op as [t v]. unfold merge_step, add_token. cbn [type value].
  destruct t; cbn [is_eq is_eq_or_ins is_eq_or_del].
  - rewrite <- (flush_texts st). destruct (flush_buffers st) as [Hi Hd].
    unfold texts_of. cbn [outRuns insBuf delBuf fst snd].
    rewrite Hi, Hd, !read_runs_app.
    unfold read_runs at 2 4 6. cbn [map concat].
    destruct (readers_plainRun v) as (-> & -> & -> & _).
    by rewrite !app_nil_r.
  - unfold texts_of. simpl. by rewrite !app_nil_r, app_assoc.
  - unfold texts_of. simpl. by rewrite !app_nil_r, app_assoc.
Qed.

Lemma foldl_merge_texts (ops : list Op) (st : MergeState) :
  texts_of (foldl (merge_step nowIso author) st ops) =
  ((texts_of st).1.1 ++ concat (tokens_where is_eq ops),
   (texts_of st).1.2 ++ concat (tokens_where is_eq_or_ins ops),
   (texts_of st).2 ++ concat (tokens_where is_eq_or_del ops)).
Proof.
  revert st. induction ops as [|op ops IH]; intros st.
  - cbn [foldl]. change (tokens_where is_eq []) with (@nil jsstring).
    change (tokens_where is_eq_or_ins []) with (@nil jsstring).
    change (tokens_where is_eq_or_del []) with (@nil jsstring).
    cbn [concat]. rewrite !app_nil_r. by destruct (texts_of st) as [[? ?] ?].
  - simpl. rewrite IH, merge_step_texts. simpl. unfold add_token.
    rewrite !tokens_where_cons.
    destruct op as [[] v]; simpl; by rewrite ?app_nil_r, <- ?app_assoc.
Qed.

(** The runs of [mergeRuns] hold the unchanged tokens under [t], and the
    whole of both token sequences. *)
Lemma mergeRuns_texts (ops : list Op) (tick : nat) :
  read_runs runText (mergeRuns nowIso ops author tick).1 = concat (tokens_where is_eq ops) /\
  read_runs revisedText (mergeRuns nowIso ops author tick).1
    = concat (tokens_where is_eq_or_ins ops) /\
  read_runs baseText (mergeRuns nowIso ops author tick).1
    = concat (tokens_where is_eq_or_del ops).
Proof.
  unfold mergeRuns. simpl.
  set (st := foldl (merge_step nowIso author) (mkMerge [] [] [] 1 tick) ops).
  pose proof (flush_texts st) as Hflush.
  destruct (flush_buffers st) as [Hi Hd].
  unfold st in Hflush at 2. rewrite foldl_merge_texts in Hflush.
  unfold texts_of in Hflush at 1. rewrite Hi, Hd, !app_nil_r in Hflush.
  simpl in Hflush. by injection Hflush as -> -> ->.
Qed.

End Synthesizer.

Section SynthesizerIds.

Variable nowIso : nat -> jsstring.
Variable author : jsstring.

Lemma ids_of_app (l1 l2 : list jsval) : ids_of (l1 ++ l2) = ids_of l1 ++ ids_of l2.
Proof. unfold ids_of. apply omap_app. Qed.

Lemma kinds_of_app (l1 l2 : list jsval) : kinds_of (l1 ++ l2) = kinds_of l1 ++ kinds_of l2.
Proof. unfold kinds_of. apply map_app. Qed.

Lemma id_range_app (first n k : nat) :
  id_range first (n + k) = id_range first n ++ id_range (first + n) k.
Proof. unfold id_range. by rewrite seq_app, map_app. Qed.

(** The runs [flush] pushes carry the next ids, in order; a deletion comes
    before an insertion. *)
Lemma flush_pushed (st : MergeState) :
  let pushed := flush_del nowIso author st ++ flush_ins nowIso author st in
  ids_of pushed = id_range (nextId st) (length pushed) /\
  (kinds_of pushed = [] \/ kinds_of pushed = [Del] \/ kinds_of pushed = [Ins] \/
   kinds_of pushed = [Del; Ins]).
Proof.
  unfold flush_ins, flush_del.
  destruct (decide (delBuf st = [])) as [Hd|Hd], (decide (insBuf st = [])) as [Hi|Hi].
  - rewrite !(bool_decide_true _ Hd), !(bool_decide_true _ Hi). split; [done|by left].
  - rewrite !(bool_decide_true _ Hd), !(bool_decide_false _ Hi). cbn [app length].
    rewrite Nat.add_0_r. split; [done|]. right. right. by left.
  - rewrite !(bool_decide_false _ Hd), !(bool_decide_true _ Hi).
    split; [done|]. right. by left.
  - rewrite !(bool_decide_false _ Hd), !(bool_decide_false _ Hi). cbn [app length].
    split; [|by repeat right]. unfold id_range. cbn [seq map]. by rewrite Nat.add_1_r.
Qed.

Lemma grouped_app (prev : OpType) (l1 l2 : list OpType) :
  grouped prev (l1 ++ l2) = grouped prev l1 && grouped (last_kind prev l1) l2.
Proof.
  revert prev. induction l1 as [|k l1 IH]; intros prev; [done|].
  assert (last_kind prev (k :: l1) = last_kind k l1) as ->.
  { unfold last_kind. rewrite last_cons. by destruct (last l1). }
  simpl. rewrite IH. by destruct prev, k.
Qed.

Lemma last_kind_app_r (prev : OpType) (l1 l2 : list OpType) :
  last_kind prev (l1 ++ l2) = last_kind (last_kind prev l1) l2.
Proof. unfold last_kind. rewrite last_app. by destruct (last l2), (last l1). Qed.

Lemma last_kind_app (prev k : OpType) (l : list OpType) :
  last_kind prev (l ++ [k]) = k.
Proof. unfold last_kind. by rewrite last_snoc. Qed.

Lemma flush_done (tick0 : nat) (st : MergeState) :
  synth_inv tick0 st -> synth_done tick0 (flush nowIso author st).
Proof.
  intros (n & Hids & Hnext & Hticks & Hgrouped & Hlast).
  rewrite flush_spec. destruct (flush_pushed st) as [Hpushed Hkinds].
  set (pushed := flush_del nowIso author st ++ flush_ins nowIso author st) in *.
  exists (n + length pushed). cbn [outRuns nextId ticks].
  rewrite ids_of_app, kinds_of_app, Hids, Hpushed, Hnext, grouped_app, Hgrouped, Hlast.
  repeat split.
  - by rewrite id_range_app, (Nat.add_comm 1 n).
  - lia.
  - by destruct Hkinds as [-> | [-> | [-> | ->]]].
Qed.

Lemma merge_step_inv (tick0 : nat) (st : MergeState) (op : Op) :
  synth_inv tick0 st -> synth_inv tick0 (merge_step nowIso author st op).
Proof.
  intros Hinv. destruct op as [t v]. unfold merge_step. cbn [type value].
  destruct t; [|exact Hinv|exact Hinv].
  pose proof Hinv as (n & Hids & Hnext & Hticks & Hgrouped & Hlast).
  rewrite flush_spec. destruct (flush_pushed st) as [Hpushed Hkinds].
  set (pushed := flush_del nowIso author st ++ flush_ins nowIso author st) in *.
  exists (n + length pushed). cbn [outRuns nextId ticks].
  rewrite !ids_of_app, !kinds_of_app, Hids, Hpushed, Hnext, !grouped_app, Hgrouped, Hlast.
  repeat split.
  - change (ids_of [plainRun v]) with (@nil jsval).
    by rewrite app_nil_r, id_range_app, (Nat.add_comm 1 n).
  - lia.
  - lia.
  - rewrite last_kind_app_r, Hlast.
    by destruct Hkinds as [-> | [-> | [-> | ->]]].
  - change (kinds_of [plainRun v]) with [Eq]. apply last_kind_app.
Qed.

Lemma foldl_merge_inv (tick0 : nat) (ops : list Op) (st : MergeState) :
  synth_inv tick0 st -> synth_inv tick0 (foldl (merge_step nowIso author) st ops).
Proof.
  revert st. induction ops as [|op ops IH]; intros st Hinv; [done|].
  simpl. by apply IH, merge_step_inv.
Qed.

Lemma mergeRuns_done (ops : list Op) (tick : nat) :
  exists n,
    ids_of (mergeRuns nowIso ops author tick).1 = id_range 1 n /\
    (mergeRuns nowIso ops author tick).2 = tick + n /\
    grouped Eq (kinds_of (mergeRuns nowIso ops author tick).1) = true.
Proof.
  unfold mergeRuns. cbn [fst snd]. apply flush_done, foldl_merge_inv.
  exists 0. repeat split; done.
Qed.

End SynthesizerIds.

(** ** The paragraph the differ builds *)

Section ParagraphDiff.

Variable nowIso : nat -> jsstring.

Lemma diffParagraph_differ (baseP revP : jsval) (author : jsstring)
    (options : Options) (tick : nat) :
  differ_runs options baseP revP ->
  diffParagraph nowIso baseP revP author options tick =
  (VObj (set_prop (spread revP) (js "r")
           (VArr (map unwrapRun
                    (mergeRuns nowIso
                       (diffTokens (tokenize (paragraphText baseP) (granularity options))
                          (tokenize (paragraphText revP) (granularity options)))
                       author tick).1))),
   (mergeRuns nowIso
      (diffTokens (tokenize (paragraphText baseP) (granularity options))
         (tokenize (paragraphText revP) (granularity options)))
      author tick).2).
Proof.
  intros Hdiffer. unfold diffParagraph.
  assert (suppressWhitespaceOnly options
          && bool_decide (trim (paragraphText baseP) = trim (paragraphText revP)) = false)
    as ->.
  { destruct Hdiffer as [->|Hne]; [done|].
    rewrite (bool_decide_false _ Hne). apply andb_false_r. }
  by destruct (mergeRuns nowIso _ author tick).
Qed.

Lemma runsOf_set_prop (props : list (jsstring * jsval)) (runs : list jsval) :
  runsOf (VObj (set_prop props (js "r") (VArr runs))) = runs.
Proof. unfold runsOf, get. by rewrite assoc_set_prop. Qed.

Lemma paragraphText_runs (props : list (jsstring * jsval)) (runs : list jsval) :
  paragraphText (VObj (set_prop props (js "r") (VArr runs))) = concat (map runText runs).
Proof.
  unfold paragraphText, get. rewrite assoc_set_prop. simpl. by rewrite foldl_runText.
Qed.

Lemma read_runs_unwrapped (reader : jsval -> jsstring) (runs : list jsval) :
  concat (map reader (map unwrapRun runs)) = read_runs reader runs.
Proof. unfold read_runs. by rewrite map_map. Qed.

Lemma ids_of_unwrapped (runs : list jsval) :
  omap (fun r => get r "id") (map unwrapRun runs) = ids_of runs.
Proof.
  unfold ids_of. induction runs as [|x runs IH]; [done|].
  cbn. destruct (get (unwrapRun x) "id"); [f_equal|]; exact IH.
Qed.

Lemma kinds_of_unwrapped (runs : list jsval) :
  map runKind (map unwrapRun runs) = kinds_of runs.
Proof. unfold kinds_of. by rewrite map_map. Qed.

(** X9: when the token differ runs, the runs of the paragraph it builds
    hold the whole text of both paragraphs: the plain and inserted texts,
    in order, make up the revised text, and the plain and deleted texts
    the base text. *)
Theorem diffParagraph_keeps_both_texts (baseP revP : jsval) (author : jsstring)
    (options : Options) (tick : nat) :
  differ_runs options baseP revP ->
  concat (map revisedText
            (runsOf (diffParagraph nowIso baseP revP author options tick).1))
    = paragraphText revP /\
  concat (map baseText
            (runsOf (diffParagraph nowIso baseP revP author options tick).1))
    = paragraphText baseP.
Proof.
  intros Hdiffer. rewrite (diffParagraph_differ _ _ _ _ _ Hdiffer). cbn [fst].
  rewrite runsOf_set_prop, !read_runs_unwrapped.
  destruct (mergeRuns_texts nowIso author
              (diffTokens (tokenize (paragraphText baseP) (granularity options))
                 (tokenize (paragraphText revP) (granularity options))) tick)
    as (_ & -> & ->).
  rewrite diffTokens_script, edit_script_base, edit_script_revised.
  by rewrite !tokens_concat.
Qed.

(** X10: read back with [paragraphText], the paragraph the differ builds
    shows the unchanged tokens only: the inserted text, which is under the
    inner run of what is left of its wrapper, is not read. *)
Theorem diffParagraph_text_is_common (baseP revP : jsval) (author : jsstring)
    (options : Options) (tick : nat) :
  differ_runs options baseP revP ->
  paragraphText (diffParagraph nowIso baseP revP author options tick).1 =
  concat (tokens_where is_eq
            (diffTokens (tokenize (paragraphText baseP) (granularity options))
               (tokenize (paragraphText revP) (granularity options)))).
Proof.
  intros Hdiffer. rewrite (diffParagraph_differ _ _ _ _ _ Hdiffer). cbn [fst].
  rewrite paragraphText_runs, read_runs_unwrapped.
  by destruct (mergeRuns_texts nowIso author
                 (diffTokens (tokenize (paragraphText baseP) (granularity options))
                    (tokenize (paragraphText revP) (granularity options))) tick)
    as (-> & _ & _).
Qed.

(** X11: when the token differ runs, the ids of the tracked runs of the
    paragraph are ["1"], ["2"], ... in the order of the runs, starting at 1
    whatever the paragraph, and the clock is read once for each. *)
Theorem diffParagraph_ids (baseP revP : jsval) (author : jsstring)
    (options : Options) (tick : nat) :
  differ_runs options baseP revP ->
  exists n,
    omap (fun r => get r "id")
      (runsOf (diffParagraph nowIso baseP revP author options tick).1) = id_range 1 n /\
    (diffParagraph nowIso baseP revP author options tick).2 = tick + n.
Proof.
  intros Hdiffer. rewrite (diffParagraph_differ _ _ _ _ _ Hdiffer). cbn [fst snd].
  rewrite runsOf_set_prop, ids_of_unwrapped.
  destruct (mergeRuns_done nowIso author
              (diffTokens (tokenize (paragraphText baseP) (granularity options))
                 (tokenize (paragraphText revP) (granularity options))) tick)
    as (n & Hids & Hticks & _).
  by exists n.
Qed.

(** X12: when the token differ runs, consecutive insert tokens end up in
    one insertion and consecutive delete tokens in one deletion: in the
    paragraph no insertion is followed by an insertion or a deletion and
    no deletion by a deletion, so a replaced stretch is one deletion and
    then one insertion. *)
Theorem diffParagraph_grouped (baseP revP : jsval) (author : jsstring)
    (options : Options) (tick : nat) :
  differ_runs options baseP revP ->
  grouped Eq (map runKind
                (runsOf (diffParagraph nowIso baseP revP author options tick).1)) = true.
Proof.
  intros Hdiffer. rewrite (diffParagraph_differ _ _ _ _ _ Hdiffer). cbn [fst].
  rewrite runsOf_set_prop, kinds_of_unwrapped.
  by destruct (mergeRuns_done nowIso author
                 (diffTokens (tokenize (paragraphText baseP) (granularity options))
                    (tokenize (paragraphText revP) (granularity options))) tick)
    as (n & _ & _ & Hgrouped).
Qed.

Lemma assoc_set_prop_ne (props : list (jsstring * jsval)) (k k' : jsstring) (v : jsval) :
  k' <> k -> assoc (set_prop props k v) k' = assoc props k'.
Proof.
  intros Hne. induction props as [|[k0 v0] props IH]; simpl.
  - by rewrite decide_False.
  - destruct (decide (k0 = k)) as [->|Hk0]; simpl.
    + by rewrite !decide_False.
    + by rewrite IH.
Qed.

(** X13: when the token differ runs, the paragraph it builds is an object
    with the properties of the revised paragraph, all but [r] unchanged;
    nothing of the base paragraph but its text goes into it. *)
Theorem diffParagraph_keeps_properties (baseP revP : jsval) (author : jsstring)
    (options : Options) (tick : nat) :
  differ_runs options baseP revP ->
  exists props,
    (diffParagraph nowIso baseP revP author options tick).1 = VObj props /\
    (forall k, k <> js "r" -> assoc props k = assoc (spread revP) k) /\
    (forall baseP',
        paragraphText baseP' = paragraphText baseP ->
        diffParagraph nowIso baseP' revP author options tick =
        diffParagraph nowIso baseP revP author options tick).
Proof.
  intros Hdiffer. eexists. split; [|split].
  - by rewrite (diffParagraph_differ _ _ _ _ _ Hdiffer).
  - intros k Hk. by apply assoc_set_prop_ne.
  - intros baseP' Htext. unfold diffParagraph. by rewrite Htext.
Qed.

End ParagraphDiff.

Lemma diffParagraph_keeps_both_texts_witness :
  concat (map revisedText
            (runsOf (diffParagraph clock0 (para "Hello  world") (para "Hello world")
                       (js "AutoDiff") (options_of word true defaultLimits) 0).1))
    = paragraphText (para "Hello world") /\
  concat (map baseText
            (runsOf (diffParagraph clock0 (para "Hello  world") (para "Hello world")
                       (js "AutoDiff") (options_of word true defaultLimits) 0).1))
    = paragraphText (para "Hello  world").
Proof.
  apply (diffParagraph_keeps_both_texts clock0 (para "Hello  world") (para "Hello world")).
  right. vm_compute. discriminate.
Defined.

Lemma diffParagraph_text_is_common_witness :
  paragraphText (diffParagraph clock0 (para "Hello  world") (para "Hello world")
                   (js "AutoDiff") (options_of word true defaultLimits) 0).1 =
  concat (tokens_where is_eq
            (diffTokens (tokenize (paragraphText (para "Hello  world")) word)
               (tokenize (paragraphText (para "Hello world")) word))).
Proof.
  apply (diffParagraph_text_is_common clock0 (para "Hello  world") (para "Hello world")
           (js "AutoDiff") (options_of word true defaultLimits) 0).
  right. vm_compute. discriminate.
Defined.

Lemma diffParagraph_ids_witness :
  exists n,
    omap (fun r => get r "id")
      (runsOf (diffParagraph clock0 (para "Hello  world") (para "Hello world")
                 (js "AutoDiff") (options_of word true defaultLimits) 7).1) = id_range 1 n /\
    (diffParagraph clock0 (para "Hello  world") (para "Hello world")
       (js "AutoDiff") (options_of word true defaultLimits) 7).2 = 7 + n.
Proof.
  apply (diffParagraph_ids clock0 (para "Hello  world") (para "Hello world")).
  right. vm_compute. discriminate.
Defined.

Lemma diffParagraph_grouped_witness :
  grouped Eq (map runKind
                (runsOf (diffParagraph clock0 (para "Hello  world") (para "Hello world")
                           (js "AutoDiff") (options_of word true defaultLimits) 0).1)) = true.
Proof.
  apply (diffParagraph_grouped clock0 (para "Hello  world") (para "Hello world")).
  right. vm_compute. discriminate.
Defined.

Lemma diffParagraph_keeps_properties_witness :
  exists props,
    (diffParagraph clock0 (para "Hello  world") (para "Hello world")
       (js "AutoDiff") (options_of word false defaultLimits) 0).1 = VObj props /\
    (forall k, k <> js "r" -> assoc props k = assoc (spread (para "Hello world")) k) /\
    (forall baseP',
        paragraphText baseP' = paragraphText (para "Hello  world") ->
        diffParagraph clock0 baseP' (para "Hello world") (js "AutoDiff")
          (options_of word false defaultLimits) 0 =
        diffParagraph clock0 (para "Hello  world") (para "Hello world") (js "AutoDiff")
          (options_of word false defaultLimits) 0).
Proof.
  apply (diffParagraph_keeps_properties clock0 (para "Hello  world") (para "Hello world")).
  left. reflexivity.
Defined.

(** ** The archive limits *)

Lemma exceeds_cap_prefixes (limits : ResourceLimits) (files : JSZip) (total : Z) :
  exceeds_cap limits total files = false <->
  forall k, 1 <= k <= length files ->
            (total + total_compressed (take k files) <= maxTotalUnzippedBytes limits * 2)%Z.
Proof.
  revert total. induction files as [|f files IH]; intros total.
  - simpl. split; [intros _ k Hk; lia|done].
  - cbn [exceeds_cap].
    destruct (Z.gtb_spec (total + default 0 (compressedSize f))%Z
                (maxTotalUnzippedBytes limits * 2)%Z) as [Hgt|Hle].
    + split; [done|]. intros Hall. specialize (Hall 1 ltac:(simpl; lia)).
      simpl in Hall. lia.
    + rewrite IH. split.
      * intros Hall k Hk. destruct k as [|k]; [lia|]. simpl.
        destruct k as [|k]; [rewrite take_0; simpl; lia|].
        specialize (Hall (S k) ltac:(simpl in Hk; lia)). lia.
      * intros Hall k Hk. specialize (Hall (S k) ltac:(simpl; lia)).
        simpl in Hall. lia.
Qed.

Section Gateway.

Variable loadAsync : Buffer -> jsstring + JSZip.

(** X15: [safeLoadDocx] hands the archive on exactly when JSZip could read
    it, it has at most [maxEntries] entries, and no running total of the
    compressed sizes, entry after entry, is above twice
    [maxTotalUnzippedBytes]. *)
Theorem safeLoadDocx_returns_iff (buf : Buffer) (limits : ResourceLimits) (zip : JSZip) :
  safeLoadDocx loadAsync buf limits = Returns zip <->
  loadAsync buf = inr zip /\
  (Z.of_nat (length zip) <= maxEntries limits)%Z /\
  forall k, 1 <= k <= length zip ->
            (total_compressed (take k zip) <= maxTotalUnzippedBytes limits * 2)%Z.
Proof.
  unfold safeLoadDocx. destruct (loadAsync buf) as [message|zip']; [by split; [|intros [? _]]|].
  destruct (Z.gtb_spec (Z.of_nat (length zip')) (maxEntries limits)) as [Hgt|Hle].
  - split; [done|]. intros ([= ->] & Hlen & _). lia.
  - destruct (exceeds_cap limits 0 zip') eqn:Hcap.
    + split; [done|]. intros ([= ->] & _ & Hall).
      assert (exceeds_cap limits 0 zip = false); [|congruence].
      apply exceeds_cap_prefixes. intros k Hk. specialize (Hall k Hk). lia.
    + split.
      * intros [= <-]. repeat split; [lia|]. intros k Hk.
        pose proof (proj1 (exceeds_cap_prefixes limits zip' 0) Hcap k Hk). lia.
      * by intros ([= ->] & _ & _).
Qed.

Lemma total_compressed_take_le (files : JSZip) (k : nat) :
  Forall (fun f => (0 <= default 0 (compressedSize f))%Z) files ->
  (total_compressed (take k files) <= total_compressed files)%Z.
Proof.
  intros Hpos. revert k. induction Hpos as [|f files Hf _ IH]; intros k.
  - by rewrite take_nil.
  - destruct k as [|k]; simpl.
    + assert (0 <= total_compressed files)%Z; [|lia].
      specialize (IH 0). by rewrite take_0 in IH.
    + specialize (IH k). lia.
Qed.

(** X16: for an archive JSZip could read, within the entry limit, and whose
    recorded sizes are not negative, [safeLoadDocx] throws the size error
    exactly when the archive has entries and the sum of their compressed
    sizes is above twice [maxTotalUnzippedBytes]. *)
Theorem safeLoadDocx_size_cap (buf : Buffer) (limits : ResourceLimits) (zip : JSZip) :
  loadAsync buf = inr zip ->
  (Z.of_nat (length zip) <= maxEntries limits)%Z ->
  Forall (fun f => (0 <= default 0 (compressedSize f))%Z) zip ->
  safeLoadDocx loadAsync buf limits = Throws (js "DOCX likely exceeds unzip cap") <->
  zip <> [] /\ (total_compressed zip > maxTotalUnzippedBytes limits * 2)%Z.
Proof.
  intros Hload Hlen Hpos. unfold safeLoadDocx. rewrite Hload.
  destruct (Z.gtb_spec (Z.of_nat (length zip)) (maxEntries limits)) as [Hgt|_]; [lia|].
  destruct (exceeds_cap limits 0 zip) eqn:Hcap.
  - split; [intros _|done].
    destruct (decide (zip = [])) as [->|Hne]; [done|]. split; [done|].
    destruct (Z.gtb_spec (total_compressed zip) (maxTotalUnzippedBytes limits * 2)%Z)
      as [Hgt|Hle]; [lia|].
    assert (exceeds_cap limits 0 zip = false); [|congruence].
    apply exceeds_cap_prefixes. intros k Hk.
    pose proof (total_compressed_take_le zip k Hpos). lia.
  - split; [done|]. intros [Hne Hgt].
    assert (forall k, 1 <= k <= length zip ->
              (0 + total_compressed (take k zip) <= maxTotalUnzippedBytes limits * 2)%Z)
      as Hall by (by apply exceeds_cap_prefixes).
    assert (1 <= length zip <= length zip) as Hk by (destruct zip; [done|simpl; lia]).
    specialize (Hall (length zip) Hk). rewrite firstn_all in Hall. lia.
Qed.

End Gateway.

Lemma safeLoadDocx_size_cap_witness :
  safeLoadDocx sample_loadAsync (js "Hello world") (mkLimits 5 10 1 4000)
    = Throws (js "DOCX likely exceeds unzip cap") <->
  [mkZipObject (js "word/document.xml") false (Some 11%Z) (Returns (js "Hello world"))]
    <> [] /\
  (total_compressed
     [mkZipObject (js "word/document.xml") false (Some 11%Z) (Returns (js "Hello world"))]
   > 5 * 2)%Z.
Proof.
  apply (safeLoadDocx_size_cap sample_loadAsync (js "Hello world") (mkLimits 5 10 1 4000)).
  - reflexivity.
  - simpl. lia.
  - apply Forall_singleton. simpl. lia.
Defined.

(** ** The alignment and the outcomes of an invocation *)

Section Outcomes.

Variable nowIso : nat -> jsstring.

Lemma present_truthy_at (xs : list jsval) (i : nat) :
  present (xs !! i) = match truthy_at xs i with Some _ => true | None => false end.
Proof. unfold present, truthy_at. destruct (xs !! i) as [v|]; [|done]. by destruct (truthy v). Qed.

Lemma align_step_returns (input : DiffInput) (bs rs : list jsval) (out : list jsval)
    (tick i : nat) :
  exists out' tick',
    align_step nowIso input bs rs (out, tick) i = Returns (out', tick') /\
    length out' = length out + (if paragraph_at bs rs i then 1 else 0).
Proof.
  unfold paragraph_at. rewrite !present_truthy_at.
  destruct (truthy_at bs i) as [bp|] eqn:Hb, (truthy_at rs i) as [rp|] eqn:Hr.
  - unfold align_step. rewrite Hb, Hr.
    destruct (diffParagraph nowIso bp rp (author input) (options input) tick) as [d tick'].
    eexists _, _. split; [reflexivity|]. by rewrite length_app.
  - rewrite (align_step_base_only nowIso input bs rs out tick i bp Hb Hr).
    eexists _, _. split; [reflexivity|]. by rewrite length_app.
  - rewrite (align_step_revised_only nowIso input bs rs out tick i rp Hb Hr).
    eexists _, _. split; [reflexivity|]. by rewrite length_app.
  - unfold align_step. rewrite Hb, Hr.
    eexists _, _. split; [reflexivity|]. simpl. lia.
Qed.

Lemma align_loop_returns (input : DiffInput) (bs rs : list jsval) (count from : nat)
    (out : list jsval) (tick : nat) :
  exists out' tick',
    align_loop nowIso input bs rs (out, tick) from count = Returns (out', tick') /\
    length out' =
      length out + length (filter (fun i => paragraph_at bs rs i = true) (seq from count)).
Proof.
  revert from out tick. induction count as [|count IH]; intros from out tick.
  - exists out, tick. split; [done|]. simpl. lia.
  - cbn [align_loop seq].
    destruct (align_step_returns input bs rs out tick from) as (out1 & tick1 & -> & Hlen1).
    destruct (IH (from + 1) out1 tick1) as (out2 & tick2 & -> & Hlen2).
    exists out2, tick2. split; [done|].
    rewrite Hlen2, Hlen1, filter_cons, Nat.add_1_r.
    destruct (decide (paragraph_at bs rs from = true)) as [Hp|Hp].
    + rewrite Hp. simpl. lia.
    + apply not_true_is_false in Hp. rewrite Hp. lia.
Qed.

Lemma filter_all {A} (P : A -> Prop) `{!forall x, Decision (P x)} (l : list A) :
  Forall P l -> filter P l = l.
Proof.
  induction 1 as [|x l Hx _ IH]; [done|].
  by rewrite filter_cons, decide_True, IH.
Qed.

Lemma alignParagraphs_total (input : DiffInput) (baseDoc revDoc : jsval) :
  exists out, alignParagraphs nowIso input baseDoc revDoc = Returns out.
Proof.
  unfold alignParagraphs.
  destruct (align_loop_returns input
              (paragraphsOf (stripTrackedChanges baseDoc))
              (paragraphsOf (stripTrackedChanges revDoc))
              (length (paragraphsOf (stripTrackedChanges baseDoc))
               `max` length (paragraphsOf (stripTrackedChanges revDoc))) 0 [] 0)
    as (out & tick & -> & _).
  by exists out.
Qed.

(** X17: the alignment never throws.  It gives one paragraph for every index
    below the longer of the two paragraph lists at which the base or the
    revision has a truthy paragraph, so at most as many as the longer list
    has, and exactly as many when no paragraph of either is falsy (an empty
    element, which the parser gives as an empty string, is). *)
Theorem alignParagraphs_returns (input : DiffInput) (baseDoc revDoc : jsval) :
  let bs := paragraphsOf (stripTrackedChanges baseDoc) in
  let rs := paragraphsOf (stripTrackedChanges revDoc) in
  exists out,
    alignParagraphs nowIso input baseDoc revDoc = Returns out /\
    length out =
      length (filter (fun i => paragraph_at bs rs i = true)
                (seq 0 (length bs `max` length rs))) /\
    length out <= length bs `max` length rs /\
    (Forall (fun p => truthy p = true) bs -> Forall (fun p => truthy p = true) rs ->
     length out = length bs `max` length rs).
Proof.
  intros bs rs. unfold alignParagraphs. fold bs rs.
  destruct (align_loop_returns input bs rs (length bs `max` length rs) 0 [] 0)
    as (out & tick & -> & Hlen).
  exists out. simpl in Hlen. repeat split; [done|..].
  - rewrite Hlen. etrans; [apply length_filter|]. by rewrite length_seq.
  - intros Hbs Hrs. rewrite Hlen, filter_all; [by rewrite length_seq|].
    apply Forall_forall. intros i [_ Hi]%elem_of_seq. unfold paragraph_at, present.
    destruct (bs !! i) as [bp|] eqn:Hb.
    { rewrite Forall_forall in Hbs. rewrite (Hbs bp); [done|].
      by apply list_elem_of_lookup_2 in Hb. }
    destruct (rs !! i) as [rp|] eqn:Hr.
    { rewrite Forall_forall in Hrs. rewrite (Hrs rp); [done|].
      by apply list_elem_of_lookup_2 in Hr. }
    apply lookup_ge_None in Hb, Hr. lia.
Qed.

Variable loadAsync : Buffer -> jsstring + JSZip.
Variable baseRejectsFirst : bool.
Variable generateAsync : JSZip -> outcome Buffer.
Variable parse : jsstring -> option jsval.
Variable build : jsval -> outcome jsstring.
Variable JSON_stringify : jsval -> jsstring.

Lemma loadXml_warnings (z : JSZip) (path : jsstring) (ws ws' : list jsstring)
    (tree : jsval) :
  loadXml parse z path ws = Returns (Some tree, ws') -> ws' = ws.
Proof.
  unfold loadXml. destruct (zip_file z path) as [f|]; [|done].
  destruct (content f) as [xml|]; [|done].
  destruct (parse xml); [|done]. by intros [= _ <-].
Qed.

Lemma loadXml_throws (z : JSZip) (path : jsstring) (ws : list jsstring)
    (message : jsstring) :
  loadXml parse z path ws = Throws message ->
  exists f, zip_file z path = Some f /\ content f = Throws message.
Proof.
  unfold loadXml. destruct (zip_file z path) as [f|]; [|done].
  destruct (content f) as [xml|message'] eqn:Hc.
  - by destruct (parse xml).
  - intros [= ->]. by exists f.
Qed.

(** X18: the outcomes of an invocation, and there is no other.  It returns
    a package, and then with an empty list of warnings; or it throws the
    error of an archive that could not be loaded or is over a limit, behind
    [Failed to read DOCX: ]; or the missing-part error; or, only under the
    policy [fail], the tracked-revisions error; or it passes on, as it is,
    the error of reading the document part of a loaded archive, of
    [builder.build] or of [generateAsync]. *)
Theorem docxDiffTracked_outcomes (input : DiffInput) :
  let limits := default defaultLimits (limits (options input)) in
  let outcome :=
    docxDiffTracked nowIso loadAsync baseRejectsFirst generateAsync parse build
      JSON_stringify input in
  (exists buf, outcome = Returns (mkResult buf [])) \/
  (exists message,
     outcome = Throws (js "Failed to read DOCX: " ++ message) /\
     (safeLoadDocx loadAsync (base input) limits = Throws message \/
      safeLoadDocx loadAsync (revised input) limits = Throws message)) \/
  outcome = Throws (js "Missing word/document.xml in one of the DOCX files") \/
  (outcome = Throws (js "Revised document contains tracked revisions") /\
   existingTrackedRevisions (options input) = policy_fail) \/
  (exists message, outcome = Throws message /\
     ((exists buf z f,
         (buf = base input \/ buf = revised input) /\
         safeLoadDocx loadAsync buf limits = Returns z /\
         zip_file z (js "word/document.xml") = Some f /\
         content f = Throws message) \/
      (exists tree, build tree = Throws message) \/
      (exists zip, generateAsync zip = Throws message))).
Proof.
  intros limits outcome. subst outcome. unfold docxDiffTracked. fold limits.
  destruct (safeLoadDocx loadAsync (base input) limits) as [baseZip|baseMessage] eqn:Hb;
    destruct (safeLoadDocx loadAsync (revised input) limits) as [revZip|revMessage] eqn:Hr.
  2: { right; left. exists revMessage. by split; [|right]. }
  2: { right; left. exists baseMessage. by split; [|left]. }
  2: { right; left. destruct baseRejectsFirst;
         [exists baseMessage; by split; [|left]|exists revMessage; by split; [|right]]. }
  destruct (loadXml parse baseZip (js "word/document.xml") [])
    as [[baseDoc ws1]|message] eqn:Hbase.
  2: { apply loadXml_throws in Hbase as (f & Hf & Hc).
       do 4 right. exists message. split; [done|]. left.
       exists (base input), baseZip, f. by repeat split; [left|..]. }
  destruct (loadXml parse revZip (js "word/document.xml") ws1)
    as [[revDoc ws2]|message] eqn:Hrev.
  2: { apply loadXml_throws in Hrev as (f & Hf & Hc).
       do 4 right. exists message. split; [done|]. left.
       exists (revised input), revZip, f. by repeat split; [right|..]. }
  destruct baseDoc as [baseDoc|]; [|by right; right; left].
  destruct revDoc as [revDoc|]; [|by right; right; left].
  apply loadXml_warnings in Hbase, Hrev. subst ws1 ws2.
  destruct (negb (truthy baseDoc) || negb (truthy revDoc)); [by right; right; left|].
  destruct (existingTrackedRevisions (options input)) eqn:Hpolicy.
  - destruct (alignParagraphs_total input baseDoc revDoc) as [out ->].
    destruct (build (docOut out)) as [documentXml|message] eqn:Hd;
      [|do 4 right; exists message; split; [done|right; left; by eexists]].
    destruct (build settings) as [settingsXml|message] eqn:Hs;
      [|do 4 right; exists message; split; [done|right; left; by eexists]].
    destruct (generateAsync (outputZip documentXml settingsXml)) as [buffer|message] eqn:Hg;
      [|do 4 right; exists message; split; [done|right; right; by eexists]].
    left. by eexists.
  - destruct (includes (JSON_stringify revDoc) (js "ins")
              || includes (JSON_stringify revDoc) (js "del"));
      [by right; right; right; left|].
    destruct (alignParagraphs_total input baseDoc revDoc) as [out ->].
    destruct (build (docOut out)) as [documentXml|message] eqn:Hd;
      [|do 4 right; exists message; split; [done|right; left; by eexists]].
    destruct (build settings) as [settingsXml|message] eqn:Hs;
      [|do 4 right; exists message; split; [done|right; left; by eexists]].
    destruct (generateAsync (outputZip documentXml settingsXml)) as [buffer|message] eqn:Hg;
      [|do 4 right; exists message; split; [done|right; right; by eexists]].
    left. by eexists.
Qed.

(** X19: when both archives are loaded and within the limits and the part
    [word/document.xml] is absent from one of them, or is a folder there,
    the invocation throws: the missing-part error, unless the part is there
    in the other archive and cannot be read, for the read of line 189 comes
    before the test of line 190: the error is then the one of that read. *)
Theorem docxDiffTracked_missing_part (input : DiffInput) (baseZip revZip : JSZip) :
  let limits := default defaultLimits (limits (options input)) in
  safeLoadDocx loadAsync (base input) limits = Returns baseZip ->
  safeLoadDocx loadAsync (revised input) limits = Returns revZip ->
  zip_file baseZip (js "word/document.xml") = None \/
  zip_file revZip (js "word/document.xml") = None ->
  docxDiffTracked nowIso loadAsync baseRejectsFirst generateAsync parse build
    JSON_stringify input =
  Throws (abort_message baseZip revZip) /\
  (read_error baseZip = None -> read_error revZip = None ->
   docxDiffTracked nowIso loadAsync baseRejectsFirst generateAsync parse build
     JSON_stringify input =
   Throws (js "Missing word/document.xml in one of the DOCX files")).
Proof.
  intros limits Hbase Hrev Hmissing.
  assert (docxDiffTracked nowIso loadAsync baseRejectsFirst generateAsync parse build
            JSON_stringify input = Throws (abort_message baseZip revZip)) as Habort.
  { apply docxDiffTracked_no_tree; [done|done|].
    destruct Hmissing as [Hm|Hm]; [left|right]; exists [], [];
      unfold loadXml; by rewrite Hm. }
  split; [done|].
  intros Hb Hr. rewrite Habort. unfold abort_message. by rewrite Hb, Hr.
Qed.

End Outcomes.

Lemma docxDiffTracked_missing_part_witness :
  docxDiffTracked clock0
    (fun buf => inr [mkZipObject (js "word/styles.xml") false (Some 5%Z) (Returns buf)])
    true sample_generateAsync sample_parse sample_build sample_stringify
    (input_of (js "<w:styles/>") (js "<w:styles/>") (options_of word true defaultLimits)) =
  Throws (js "Missing word/document.xml in one of the DOCX files").
Proof.
  apply (docxDiffTracked_missing_part clock0
           (fun buf => inr [mkZipObject (js "word/styles.xml") false (Some 5%Z)
                              (Returns buf)])
           true sample_generateAsync sample_parse sample_build sample_stringify
           (input_of (js "<w:styles/>") (js "<w:styles/>")
              (options_of word true defaultLimits))
           [mkZipObject (js "word/styles.xml") false (Some 5%Z)
              (Returns (js "<w:styles/>"))]
           [mkZipObject (js "word/styles.xml") false (Some 5%Z)
              (Returns (js "<w:styles/>"))]).
  - reflexivity.
  - reflexivity.
  - left. reflexivity.
  - reflexivity.
  - reflexivity.
Defined.

(** ** The word tokenizer cuts the text into its runs of one kind *)

Lemma class_runs_heads (s : jsstring) :
  match class_runs s with
  | [] => s = []
  | run :: _ => exists c s' run', s = c :: s' /\ run = c :: run'
  end.
Proof.
  destruct s as [|c s]; [done|]. simpl.
  destruct (class_runs s) as [|[|d run] runs]; try by eexists _, _, _.
  destruct (class_of c =? class_of d); by eexists _, _, _.
Qed.

(** A run of one kind in front of a text that does not go on with that
    kind is the first run of the whole. *)
Lemma class_runs_app (k : nat) (l1 l2 : jsstring) :
  l1 <> [] -> Forall (fun c => class_of c = k) l1 ->
  match l2 with [] => True | d :: _ => class_of d <> k end ->
  class_runs (l1 ++ l2) = l1 :: class_runs l2.
Proof.
  intros Hne Hall Hnext. induction l1 as [|c l1 IH]; [done|].
  apply Forall_cons in Hall as [Hc Hall]. simpl.
  destruct l1 as [|c' l1].
  - simpl. pose proof (class_runs_heads l2) as Hheads.
    destruct (class_runs l2) as [|[|d run] runs]; [done| |].
    + by destruct Hheads as (? & ? & ? & _ & ?).
    + destruct Hheads as (d' & s' & run' & -> & [= <- <-]).
      rewrite Hc. by rewrite (proj2 (Nat.eqb_neq k (class_of d))).
  - rewrite IH by done. apply Forall_cons in Hall as [Hc' _].
    by rewrite Hc, Hc', Nat.eqb_refl.
Qed.

Lemma segment_ok_class (s : jsstring) (p q : nat) :
  segment_ok s p q ->
  exists k, k <> 0 /\ Forall (fun c => class_of c = k) (substring s p q) /\
            forall i c, p <= i < q -> s !! i = Some c -> class_of c = k.
Proof.
  intros [w Hseg]. exists (if w then 1 else 2).
  assert (forall i c, p <= i < q -> s !! i = Some c -> class_of c = if w then 1 else 2)
    as Hclass.
  { intros i c Hi Hc. destruct (Hseg i c Hi Hc) as [Hs Hw].
    unfold class_of. rewrite Hs, Hw. by destruct w. }
  split; [by destruct w|]. split; [|done]. by apply substring_Forall.
Qed.

Lemma spaces_length_class (l : jsstring) :
  Forall (fun c => class_of c = 0) (take (spaces_length l) l) /\
  match drop (spaces_length l) l with [] => True | d :: _ => class_of d <> 0 end.
Proof.
  induction l as [|c l [IH1 IH2]]; [done|]. simpl.
  destruct (is_space c) eqn:Hc; simpl.
  - split; [|done]. constructor; [|done]. unfold class_of. by rewrite Hc.
  - split; [done|]. unfold class_of. rewrite Hc. by destruct (is_word c).
Qed.

Lemma substring_nonempty (s : jsstring) (p q : nat) :
  p < q -> q <= length s -> substring s p q <> [].
Proof.
  intros Hpq Hq Hnil. apply (f_equal length) in Hnil.
  unfold substring in Hnil. rewrite length_take, length_drop in Hnil. simpl in Hnil. lia.
Qed.

Lemma substring_empty (s : jsstring) (p : nat) : substring s p p = [].
Proof. unfold substring. by rewrite Nat.sub_diag. Qed.

Lemma filter_nonempty_app (l1 l2 : list jsstring) :
  filter (fun t : jsstring => t <> []) (l1 ++ l2) =
  filter (fun t : jsstring => t <> []) l1 ++ filter (fun t : jsstring => t <> []) l2.
Proof. apply filter_app. Qed.

Lemma filter_nonempty_one (t : jsstring) :
  filter (fun t : jsstring => t <> []) [t] = if decide (t = []) then [] else [t].
Proof.
  rewrite filter_cons. destruct (decide (t = [])) as [->|Hne].
  - by rewrite decide_False by (intros H; by apply H).
  - by rewrite decide_True.
Qed.

Lemma filter_nonempty_keep (t : jsstring) :
  t <> [] -> filter (fun t : jsstring => t <> []) [t] = [t].
Proof. intros Hne. rewrite filter_nonempty_one. by destruct (decide (t = [])). Qed.

Lemma filter_nonempty_drop : filter (fun t : jsstring => t <> []) [[]] = [].
Proof. by rewrite filter_nonempty_one. Qed.

(** A stretch with no whitespace and no word boundary inside, up to the
    end of the text, is at most one run. *)
Lemma class_runs_segment (s : jsstring) (p : nat) :
  segment_ok s p (length s) ->
  class_runs (drop p s) = filter (fun t : jsstring => t <> []) [drop p s].
Proof.
  intros Hseg. destruct (segment_ok_class s p (length s) Hseg) as (k & _ & Hall & _).
  rewrite substring_to_end in Hall. rewrite filter_nonempty_one.
  destruct (decide (drop p s = [])) as [->|Hne]; [done|].
  rewrite <- (app_nil_r (drop p s)) at 1. by rewrite (class_runs_app k).
Qed.

Lemma split_loop_class_runs (s : jsstring) (p q : nat) (A : list jsstring) :
  p <= q -> q <= length s -> segment_ok s p q ->
  filter (fun t : jsstring => t <> []) (split_loop s p q A) =
  filter (fun t : jsstring => t <> []) A ++ class_runs (drop p s).
Proof.
  funelim (split_loop s p q A); intros Hpq Hq Hseg.
  - assert (q = length s) as -> by lia.
    rewrite filter_nonempty_app, substring_to_end. f_equal.
    by rewrite class_runs_segment.
  - match goal with
    | E : match_at _ _ = None |- _ => destruct (match_at_None _ _ E) as [Hs Hb]
    end.
    match goal with
    | IH : context [split_loop _ _ _ _] |- _ => apply IH; [lia|lia|]
    end.
    by apply segment_ok_extend.
  - match goal with
    | E : match_at _ _ = Some _ |- _ =>
        destruct (match_at_cases _ _ _ E) as [[Hs He]|(Hs & Hb & He)]
    end; [pose proof (spaces_length_pos _ _ Hs); lia|].
    match goal with
    | IH : context [split_loop _ _ _ _] |- _ => apply IH; [lia|lia|]
    end.
    apply segment_ok_extend; [done|done|done|lia].
  - match goal with
    | IH : context [split_loop _ _ _ _] |- _ =>
        rewrite IH; [|lia|lia|apply segment_ok_empty]
    end.
    rewrite filter_nonempty_app, <- app_assoc. f_equal.
    destruct (segment_ok_class s p q Hseg) as (k & Hk & Hall & Hclass).
    match goal with
    | E : match_at _ _ = Some _ |- _ =>
        destruct (match_at_cases _ _ _ E) as [[Hs He]|(Hs & Hb & He)]
    end.
    + (* a whitespace separator *)
      pose proof (spaces_length_pos _ _ Hs) as Hpos.
      destruct (spaces_length_class (drop q s)) as [Hspaces Hafter].
      assert (e0 `min` length s = e0) as Hmin.
      { subst e0.
        assert (spaces_length (drop q s) <= length (drop q s)) as Hle.
        { clear. induction (drop q s) as [|c l IH]; simpl; [lia|].
          destruct (is_space c); simpl; lia. }
        rewrite length_drop in Hle. lia. }
      rewrite Hmin in *.
      assert (substring s q e0 = take (spaces_length (drop q s)) (drop q s)) as Hsep.
      { unfold substring. f_equal. lia. }
      assert (drop e0 s = drop (spaces_length (drop q s)) (drop q s)) as Hrest.
      { rewrite drop_drop. f_equal. lia. }
      assert (drop q s = substring s q e0 ++ drop e0 s) as Hq2
        by (by rewrite substring_drop by lia).
      assert (substring s q e0 <> []) as Hsepne by (apply substring_nonempty; lia).
      assert (class_runs (drop q s) = substring s q e0 :: class_runs (drop e0 s)) as Hruns.
      { rewrite Hq2 at 1. apply (class_runs_app 0); [done|by rewrite Hsep|by rewrite Hrest]. }
      change [substring s p q; substring s q e0]
        with ([substring s p q] ++ [substring s q e0]).
      rewrite filter_nonempty_app, (filter_nonempty_keep _ Hsepne).
      destruct (decide (p = q)) as [->|Hne].
      * rewrite substring_empty, filter_nonempty_drop. simpl. by rewrite Hruns.
      * assert (substring s p q <> []) as Hsegne by (apply substring_nonempty; lia).
        rewrite (filter_nonempty_keep _ Hsegne). simpl.
        rewrite <- (substring_drop s p q) by lia.
        rewrite (class_runs_app k); [by rewrite Hruns|done|done|].
        rewrite Hq2. rewrite Hsep in Hsepne |- *. revert Hspaces Hsepne.
        generalize (take (spaces_length (drop q s)) (drop q s)).
        intros [|d sep] Hsp Hne'; [done|].
        apply Forall_cons in Hsp as [Hd _]. simpl. lia.
    + (* a word boundary *)
      subst e0. assert (q `min` length s = q) as Hmin by lia. rewrite Hmin in *.
      assert (p < q) as Hlt by lia.
      rewrite substring_empty.
      change [substring s p q; []] with ([substring s p q] ++ [[]]).
      rewrite filter_nonempty_app, filter_nonempty_drop, app_nil_r.
      assert (substring s p q <> []) as Hsegne by (apply substring_nonempty; lia).
      rewrite (filter_nonempty_keep _ Hsegne). simpl.
      rewrite <- (substring_drop s p q) by lia. symmetry.
      apply (class_runs_app k); [done|done|].
      destruct (lookup_lt_is_Some_2 s q) as [d Hd]; [lia|].
      rewrite (drop_S s d q Hd).
      destruct q as [|q']; [lia|].
      destruct (lookup_lt_is_Some_2 s q') as [c Hc]; [lia|].
      pose proof (Hclass q' c ltac:(lia) Hc) as Hck.
      unfold word_boundary, word_at, space_at in *. rewrite Hc, Hd in *.
      unfold class_of in *. rewrite Hs.
      destruct (is_space c), (is_word c), (is_word d); simpl in *; subst k; done.
Qed.

(** X1: the word tokenizer cuts the text into its maximal runs of one kind
    of character: whitespace, word characters ([A-Za-z0-9_]), others. *)
Theorem tokenizeWords_class_runs (text : jsstring) :
  tokenizeWords text = class_runs text.
Proof.
  unfold tokenizeWords. destruct text as [|c text]; [reflexivity|].
  unfold split_words.
  by rewrite split_loop_class_runs; [|lia|simpl; lia|apply segment_ok_empty].
Qed.


